(** * kuberpak unpacker: the reconciliation core of [unpack.go]

    A shallow embedding of [cmd/unpack/internal/unpacker/unpack.go]:
    the manifest loader [getObjects], the desired-state builder
    [getDesiredConfigMaps], the reconciler [ensureDesiredConfigMaps] and the
    two map comparisons [stringMapsEqual] and [bytesMapsEqual].

    Go maps are finite maps of stdpp ([gmap]); a [nil] map is kept apart from
    an empty one.  The order in which Go's [range] visits a map is not fixed
    by the language: it is a variable of the development, constrained only
    to enumerate the entries of the map.  Calls on the remote client are
    state passing over an abstract client state. *)

From Stdlib Require Import ZArith NArith String Ascii List.
From Stdlib.Strings Require Import Byte.
From stdpp Require Import base option list gmap strings fin_maps sorting.

(** ** Bytes *)

Abbreviation byte := Byte.byte.

#[global] Instance byte_eq_decision : EqDecision byte := Byte.byte_eq_dec.

(** [bytes.Equal]: a nil slice and an empty slice are equal for it, and a
    [list byte] does not tell them apart either. *)
Definition bytes_Equal (a b : list byte) : bool := bool_decide (a = b).

(** ** Go errors *)

(** [io_EOF] is the sentinel [io.EOF]; [StatusError] is an API status error of
    the remote store with its reason; [errorString] is what [errors.New] and
    [fmt.Errorf] with the verb [%v] build; [wrapError] is an error that wraps
    another one ([Unwrap]). *)
Inductive error : Type :=
  | io_EOF
  | StatusError (reason : string) (message : string)
  | errorString (message : string)
  | wrapError (message : string) (err : error).

#[global] Instance error_eq_decision : EqDecision error.
Proof. solve_decision. Defined.

(** The method [Error()]. *)
Definition Error (e : error) : string :=
  match e with
  | io_EOF => "EOF"
  | StatusError _ m => m
  | errorString m => m
  | wrapError m _ => m
  end.

(** The text of an error value under the verb [%v]. *)
Definition ErrorText (err : option error) : string :=
  match err with
  | Some e => Error e
  | None => "<nil>"
  end.

(** [fmt.Errorf(prefix + "%v", err)]: the text of [err] is kept, its identity
    is not. *)
Definition Errorf (prefix : string) (err : option error) : error :=
  errorString (prefix +:+ ErrorText err).

(** [errors.Is(err, io.EOF)]. *)
Fixpoint errors_Is_EOF (e : error) : bool :=
  match e with
  | io_EOF => true
  | wrapError _ e' => errors_Is_EOF e'
  | _ => false
  end.

(** [apierrors.IsNotFound]. *)
Definition IsNotFound (e : error) : bool :=
  match e with
  | StatusError reason _ => bool_decide (reason = "NotFound")
  | _ => false
  end.

(** [client.IgnoreNotFound]: [None] is the nil error. *)
Definition IgnoreNotFound (err : option error) : option error :=
  match err with
  | Some e => if IsNotFound e then None else Some e
  | None => None
  end.

(** ** Go maps *)

(** A value of a Go map type with string keys: [None] is the nil map. *)
Definition GoMap (V : Type) : Type := option (gmap string V).

(** The entries of a map; a nil map has none. *)
Definition entries {V} (m : GoMap V) : gmap string V := default ∅ m.

(** [len(m)]. *)
Definition len {V} (m : GoMap V) : nat := size (entries m).

(** [v, ok := m[k]]. *)
Definition index {V} (m : GoMap V) (k : string) : option V := entries m !! k.

(** ** Kubernetes objects *)

(** [types.NamespacedName]. *)
Record NamespacedName : Type := mkNamespacedName {
  nnNamespace : string;
  nnName : string;
}.

#[global] Instance NamespacedName_eq_decision : EqDecision NamespacedName.
Proof. solve_decision. Defined.

#[global] Instance NamespacedName_countable : Countable NamespacedName :=
  inj_countable' (fun k => (nnNamespace k, nnName k))
                 (fun p => mkNamespacedName p.1 p.2)
                 (fun k => match k with mkNamespacedName _ _ => eq_refl end).

(** [metav1.OwnerReference]. *)
Record OwnerReference : Type := mkOwnerReference {
  orAPIVersion : string;
  orKind : string;
  orName : string;
  orUID : string;
  orController : bool;
  orBlockOwnerDeletion : bool;
}.

(** [corev1.ConfigMap], with the fields of [metav1.ObjectMeta] the unpacker
    reads or writes. *)
Record ConfigMap : Type := mkConfigMap {
  Name : string;
  Namespace : string;
  Labels : GoMap string;
  Annotations : GoMap string;
  OwnerReferences : list OwnerReference;
  Immutable : option bool;
  Data : GoMap string;
  BinaryData : GoMap (list byte);
}.

(** [types.NamespacedName{Namespace: cm.Namespace, Name: cm.Name}]. *)
Definition keyOf (cm : ConfigMap) : NamespacedName :=
  mkNamespacedName (Namespace cm) (Name cm).

(** ** SHA-256 *)

(** [crypto/sha256.Sum256], after FIPS 180-4; words are numbers below 2^32. *)
Module Sha256.

Local Open Scope N_scope.

Definition w32 (x : N) : N := N.land x 0xFFFFFFFF.
Definition add32 (x y : N) : N := w32 (x + y).
Definition rotr (n x : N) : N := N.lor (N.shiftr x n) (w32 (N.shiftl x (32 - n))).
Definition not32 (x : N) : N := N.lxor x 0xFFFFFFFF.

Definition Ch (x y z : N) : N := N.lxor (N.land x y) (N.land (not32 x) z).
Definition Maj (x y z : N) : N :=
  N.lxor (N.lxor (N.land x y) (N.land x z)) (N.land y z).
Definition bigSigma0 (x : N) : N := N.lxor (N.lxor (rotr 2 x) (rotr 13 x)) (rotr 22 x).
Definition bigSigma1 (x : N) : N := N.lxor (N.lxor (rotr 6 x) (rotr 11 x)) (rotr 25 x).
Definition smallSigma0 (x : N) : N := N.lxor (N.lxor (rotr 7 x) (rotr 18 x)) (N.shiftr x 3).
Definition smallSigma1 (x : N) : N := N.lxor (N.lxor (rotr 17 x) (rotr 19 x)) (N.shiftr x 10).

(** The first [n] primes, by trial division over the candidates below
    [bound]. *)
Definition isPrime (p : N) : bool :=
  (1 <? p) && forallb (fun d => negb (p mod d =? 0) || (p <=? d))
                      (N.of_nat <$> seq 2 (N.to_nat (N.sqrt p))).

Definition primes (n bound : nat) : list N :=
  take n (List.filter isPrime (N.of_nat <$> seq 2 bound)).

(** The integer cube root of [x], one bit after the other from bit [bits]
    down. *)
Fixpoint cubeRoot (bits : nat) (x r : N) : N :=
  match bits with
  | O => r
  | Datatypes.S bits' =>
      let r' := r + N.shiftl 1 (N.of_nat bits') in
      cubeRoot bits' x (if r' * r' * r' <=? x then r' else r)
  end.

(** The round constants: the first 32 bits of the fractional parts of the
    cube roots of the first 64 primes. *)
Definition K : list N :=
  Eval vm_compute in
    (fun p => w32 (cubeRoot 40 (N.shiftl p 96) 0)) <$> primes 64 400.

(** The initial hash value: the first 32 bits of the fractional parts of the
    square roots of the first 8 primes. *)
Definition H0 : list N :=
  Eval vm_compute in (fun p => w32 (N.sqrt (N.shiftl p 64))) <$> primes 8 400.

(** The eight working words. *)
Record Digest : Type := mkDigest {
  h0 : N; h1 : N; h2 : N; h3 : N; h4 : N; h5 : N; h6 : N; h7 : N;
}.

Definition init : Digest :=
  let h i := nth i H0 0 in
  mkDigest (h 0%nat) (h 1%nat) (h 2%nat) (h 3%nat) (h 4%nat) (h 5%nat) (h 6%nat) (h 7%nat).

(** Big-endian words of a block of bytes. *)
Fixpoint words (block : list byte) : list N :=
  match block with
  | b0 :: b1 :: b2 :: b3 :: rest =>
      (Byte.to_N b0 * 0x1000000 + Byte.to_N b1 * 0x10000
       + Byte.to_N b2 * 0x100 + Byte.to_N b3) :: words rest
  | _ => []
  end.

(** The message schedule: [n] more words after the words [w]. *)
Fixpoint schedule (n : nat) (w : list N) : list N :=
  match n with
  | O => w
  | Datatypes.S n' =>
      let back i := nth (length w - i) w 0 in
      schedule n' (w ++ [add32 (add32 (smallSigma1 (back 2%nat)) (back 7%nat))
                               (add32 (smallSigma0 (back 15%nat)) (back 16%nat))])
  end.

Definition round (d : Digest) (kw : N * N) : Digest :=
  let t1 := add32 (add32 (add32 (h7 d) (bigSigma1 (h4 d))) (Ch (h4 d) (h5 d) (h6 d)))
                  (add32 kw.1 kw.2) in
  let t2 := add32 (bigSigma0 (h0 d)) (Maj (h0 d) (h1 d) (h2 d)) in
  mkDigest (add32 t1 t2) (h0 d) (h1 d) (h2 d) (add32 (h3 d) t1) (h4 d) (h5 d) (h6 d).

Definition compress (d : Digest) (block : list byte) : Digest :=
  let d' := fold_left round (combine K (schedule 48 (words block))) d in
  mkDigest (add32 (h0 d) (h0 d')) (add32 (h1 d) (h1 d')) (add32 (h2 d) (h2 d'))
           (add32 (h3 d) (h3 d')) (add32 (h4 d) (h4 d')) (add32 (h5 d) (h5 d'))
           (add32 (h6 d) (h6 d')) (add32 (h7 d) (h7 d')).

Definition byteOf (n : N) : byte := default x00 (Byte.of_N (N.land n 0xFF)).

(** The [n] low bytes of [x], most significant first. *)
Fixpoint bigEndian (n : nat) (x : N) : list byte :=
  match n with
  | O => []
  | Datatypes.S n' => byteOf (N.shiftr x (8 * N.of_nat n')) :: bigEndian n' x
  end.

(** The message, the byte 0x80, zero bytes up to 56 modulo 64, and the length
    of the message in bits on eight bytes. *)
Definition pad (msg : list byte) : list byte :=
  let l := length msg in
  let zeros := ((119 - l mod 64) mod 64)%nat in
  msg ++ x80 :: replicate zeros x00 ++ bigEndian 8 (8 * N.of_nat l).

(** The blocks of 64 bytes of [data]; [n] bounds their number. *)
Fixpoint blocks (n : nat) (data : list byte) : list (list byte) :=
  match n, data with
  | Datatypes.S n', _ :: _ => take 64 data :: blocks n' (drop 64 data)
  | _, _ => []
  end.

Definition digestBytes (d : Digest) : list byte :=
  bigEndian 4 (h0 d) ++ bigEndian 4 (h1 d) ++ bigEndian 4 (h2 d) ++ bigEndian 4 (h3 d) ++
  bigEndian 4 (h4 d) ++ bigEndian 4 (h5 d) ++ bigEndian 4 (h6 d) ++ bigEndian 4 (h7 d).

Definition Sum256 (data : list byte) : list byte :=
  let padded := pad data in
  digestBytes (fold_left compress (blocks (length padded) padded) init).

End Sha256.

(** [fmt.Sprintf("%x", b)]: two lower-case hexadecimal digits a byte. *)
Definition hexDigit (n : N) : ascii :=
  nth (N.to_nat n) (list_ascii_of_string "0123456789abcdef") "0"%char.

Fixpoint hex (b : list byte) : string :=
  match b with
  | [] => EmptyString
  | x :: b' =>
      String (hexDigit (N.shiftr (Byte.to_N x) 4))
        (String (hexDigit (N.land (Byte.to_N x) 15)) (hex b'))
  end.

(** ** The manifest source *)

(** [fs.DirEntry]. *)
Record DirEntry : Type := mkDirEntry {
  entryName : string;
  IsDir : bool;
}.

(** What the unpacker asks of its [fs.FS]: [fs.ReadDir(fsys, ".")] and
    [fs.ReadFile(fsys, name)]. *)
Record FS : Type := mkFS {
  ReadDir : error + list DirEntry;
  ReadFile : string → error + list byte;
}.

(** Whether the text [s] includes the text [sub]. *)
Fixpoint includes (sub s : string) : bool :=
  String.prefix sub s ||
  match s with
  | EmptyString => false
  | String _ s' => includes sub s'
  end.

(** ** Manifest objects, bundles and the unpacker *)

(** The methods of [client.Object] the unpacker calls.  [ToAPIVersionAndKind]
    stands for [obj.GetObjectKind().GroupVersionKind().ToAPIVersionAndKind()],
    whose first result is the API version and whose second is the kind. *)
Class ClientObject (O : Type) : Type := {
  GetName : O → string;
  GetNamespace : O → string;
  ToAPIVersionAndKind : O → string * string;
}.

(** [olmv1alpha1.Bundle]. *)
Module Bundle.
Record t : Type := mk {
  Name : string;
  Namespace : string;
  UID : string;
  Image : string;
}.
End Bundle.

(** The fields of [Unpacker] that are plain data. *)
Module Unpacker.
Record t : Type := mk {
  Namespace : string;
  PodName : string;
  PackageName : string;
  BundleName : string;
}.
End Unpacker.

Section Loader.

Context {O : Type}.

(** [utilyaml.NewYAMLOrJSONDecoder(bytes.NewReader(fileData), 1024)] on the
    bytes of one file: the objects that successive calls of [Decode] yield,
    and the error of the first call that yields none, which is [io.EOF] at
    the end of the data and another error at a malformed document. *)
Variable YAMLOrJSONDecoder : list byte → list O * error.

Variable Manifests : FS.

(** The loop of lines 174-183 on one file.  The result is the pair the Go
    function returns from inside the loop, or the objects so far. *)
Fixpoint decodeFile (docs : list O) (err : error) (objects : list O)
    : error + list O :=
  match docs with
  | obj :: docs' => decodeFile docs' err (objects ++ [obj])
  | [] => if errors_Is_EOF err then inr objects else inl err
  end.

(** The loop of lines 165-184 over the directory entries. *)
Fixpoint readEntries (dirEntries : list DirEntry) (objects : list O)
    : list O * option error :=
  match dirEntries with
  | [] => (objects, None)
  | e :: dirEntries' =>
      if IsDir e then readEntries dirEntries' objects
      else
        match ReadFile Manifests (entryName e) with
        | inl err => ([], Some err)
        | inr fileData =>
            let '(docs, derr) := YAMLOrJSONDecoder fileData in
            match decodeFile docs derr objects with
            | inl err => ([], Some err)
            | inr objects' => readEntries dirEntries' objects'
            end
        end
  end.

(** The pair [([]client.Object, error)] of the Go function: [None] is the nil
    error, and [[]] the nil slice. *)
Definition getObjects : list O * option error :=
  match ReadDir Manifests with
  | inl err => ([], Some (Errorf "read manifests: " (Some err)))
  | inr dirEntries => readEntries dirEntries []
  end.

(** The documents of one entry, as the decoder yields them; a directory has
    none. *)
Definition documentsOf (e : DirEntry) : list O :=
  if IsDir e then []
  else
    match ReadFile Manifests (entryName e) with
    | inr fileData => (YAMLOrJSONDecoder fileData).1
    | inl _ => []
    end.

(** An entry that is a directory, or a file that is read and decoded up to
    its end. *)
Definition entryLoads (e : DirEntry) : Prop :=
  IsDir e = true ∨
  ∃ fileData, ReadFile Manifests (entryName e) = inr fileData ∧
              errors_Is_EOF (YAMLOrJSONDecoder fileData).2 = true.

(** A file that is read and has a malformed document: the decoder ends on
    [err], which is not [io.EOF]. *)
Definition entryMalformed (e : DirEntry) (err : error) : Prop :=
  IsDir e = false ∧
  ∃ fileData, ReadFile Manifests (entryName e) = inr fileData ∧
              (YAMLOrJSONDecoder fileData).2 = err ∧ errors_Is_EOF err = false.

End Loader.

(** ** The desired chunks *)

Section Builder.

Context {O : Type} `{!ClientObject O}.

(** [yaml.Marshal(obj)] of [gopkg.in/yaml.v2]. *)
Variable yaml_Marshal : O → error + list byte.

(** [gzipper.Write(objData)] on a fresh [gzip.Writer] over an empty buffer:
    the error, if any. *)
Variable gzip_Write : list byte → option error.

(** [gzipper.Close()] after [objData] was written: the error, or the bytes
    the buffer then holds, the gzip compression of [objData]. *)
Variable gzip_Close : list byte → error + list byte.

(** The owner reference [controllerutil.SetControllerReference] computes for
    the bundle and a config map, or its error. *)
Variable controllerRef : Bundle.t → ConfigMap → error + OwnerReference.

Variable u : Unpacker.t.

(** [controllerutil.SetControllerReference(bundle, &cm, scheme)]: on success
    the owner reference is the one change to [cm]. *)
Definition SetControllerReference (bundle : Bundle.t) (cm : ConfigMap)
    : error + ConfigMap :=
  match controllerRef bundle cm with
  | inl err => inl err
  | inr ref =>
      inr {| Name := Name cm; Namespace := Namespace cm; Labels := Labels cm;
             Annotations := Annotations cm;
             OwnerReferences := OwnerReferences cm ++ [ref];
             Immutable := Immutable cm; Data := Data cm;
             BinaryData := BinaryData cm |}
  end.

(** Lines 188-190. *)
Definition getConfigMapLabels : GoMap string :=
  Some {[ "kuberpak.io/bundle-name" := Unpacker.BundleName u ]}.

(** [hash[0:8]]. *)
Definition hashPrefix (hash : string) : string := substring 0 8 hash.

(** The body of the loop of lines 194-233 for one object: the error it
    returns with, or the config map it appends. *)
Definition desiredConfigMap (bundle : Bundle.t) (resolvedImage : string) (obj : O)
    : error + ConfigMap :=
  match yaml_Marshal obj with
  | inl err => inl err
  | inr objData =>
      let hash := hex (Sha256.Sum256 objData) in
      match gzip_Write objData with
      | Some err => inl (Errorf "gzip object data: " (Some err))
      | None =>
          match gzip_Close objData with
          | inl err => inl (Errorf "close gzip writer: " (Some err))
          | inr objCompressed =>
              let immutable := true in
              let '(kind, apiVersion) := ToAPIVersionAndKind obj in
              let cm := {|
                Name := "bundle-object-" +:+ Unpacker.BundleName u +:+ "-" +:+ hashPrefix hash;
                Namespace := Unpacker.Namespace u;
                Labels := getConfigMapLabels;
                Annotations := None;
                OwnerReferences := [];
                Immutable := Some immutable;
                Data := Some (list_to_map [
                  ("bundle-image", resolvedImage);
                  ("object-sha256", hash);
                  ("object-kind", kind);
                  ("object-apiversion", apiVersion);
                  ("object-name", GetName obj);
                  ("object-namespace", GetNamespace obj) ]);
                BinaryData := Some {[ "object" := objCompressed ]};
              |} in
              match SetControllerReference bundle cm with
              | inl err => inl (Errorf "set owner reference on configmap: " (Some err))
              | inr cm' => inr cm'
              end
          end
      end
  end.

Fixpoint appendDesired (bundle : Bundle.t) (resolvedImage : string)
    (objects : list O) (desiredConfigMaps : list ConfigMap)
    : list ConfigMap * option error :=
  match objects with
  | [] => (desiredConfigMaps, None)
  | obj :: objects' =>
      match desiredConfigMap bundle resolvedImage obj with
      | inl err => ([], Some err)
      | inr cm => appendDesired bundle resolvedImage objects' (desiredConfigMaps ++ [cm])
      end
  end.

(** The pair [([]corev1.ConfigMap, error)] of the Go function. *)
Definition getDesiredConfigMaps (bundle : Bundle.t) (resolvedImage : string)
    (objects : list O) : list ConfigMap * option error :=
  appendDesired bundle resolvedImage objects [].

End Builder.

(** ** The order of [range] over a map *)

(** [range K V m] is the sequence of entries a [for ... range m] loop visits.
    Go leaves the order open; all that is assumed of a [range] is that
    every entry is visited once. *)
Definition RangeOrder
    (range : forall K (EqK : EqDecision K) (CntK : Countable K) V,
               gmap K V -> list (K * V)) : Prop :=
  forall K (EqK : EqDecision K) (CntK : Countable K) V (m : gmap K V),
    range K EqK CntK V m ≡ₚ map_to_list m.

Section MapRange.

Variable range : forall K (EqK : EqDecision K) (CntK : Countable K) V,
  gmap K V -> list (K * V).

Arguments range K {_ _} V _.

Hypothesis range_Permutation : RangeOrder range.

(** ** Comparing maps *)

(** The loop body of both comparisons, as a test on one entry of [a]. *)
Definition stringEntryEqual (b : GoMap string) (e : string * string) : bool :=
  match index b e.1 with
  | Some vb => bool_decide (e.2 = vb)
  | None => false
  end.

Definition stringMapsEqual (a b : GoMap string) : bool :=
  if negb (Nat.eqb (len a) (len b)) then false
  else forallb (stringEntryEqual b) (range string string (entries a)).

Definition bytesEntryEqual (b : GoMap (list byte)) (e : string * list byte) : bool :=
  match index b e.1 with
  | Some vb => bytes_Equal e.2 vb
  | None => false
  end.

Definition bytesMapsEqual (a b : GoMap (list byte)) : bool :=
  if negb (Nat.eqb (len a) (len b)) then false
  else forallb (bytesEntryEqual b) (range string (list byte) (entries a)).

(** *** Lemmas on the comparisons *)

Lemma range_elem_of K `{Countable K} V (m : gmap K V) k v :
  (k, v) ∈ range K V m ↔ m !! k = Some v.
Proof. rewrite (range_Permutation K _ _ V m). apply elem_of_map_to_list. Qed.

Lemma range_NoDup K `{Countable K} V (m : gmap K V) :
  NoDup (range K V m).
Proof. rewrite (range_Permutation K _ _ V m). apply NoDup_map_to_list. Qed.

Lemma range_NoDup_fst K `{Countable K} V (m : gmap K V) :
  NoDup (range K V m).*1.
Proof. rewrite (range_Permutation K _ _ V m). apply NoDup_fst_map_to_list. Qed.

(** A loop that returns [false] at the first entry of [a] that [b] lacks or
    maps elsewhere, after the lengths were found equal, decides equality of
    the entries. *)
Lemma entries_forall_eq {V} (a b : gmap string V) :
  size a = size b ->
  (forall k v, a !! k = Some v -> b !! k = Some v) ->
  a = b.
Proof.
  intros Hsize Hsub.
  apply map_subseteq_size_eq; [|lia].
  apply map_subseteq_spec. exact Hsub.
Qed.

Lemma stringMapsEqual_spec (a b : GoMap string) :
  stringMapsEqual a b = true ↔ entries a = entries b.
Proof.
  unfold stringMapsEqual, len.
  destruct (Nat.eqb_spec (size (entries a)) (size (entries b))) as [Hsz|Hsz]; simpl.
  - rewrite forallb_forall. split.
    + intros Hall. apply entries_forall_eq; [done|].
      intros k v Hkv.
      specialize (Hall (k, v)). rewrite <- list_elem_of_In in Hall.
      specialize (Hall (proj2 (range_elem_of _ _ _ _ _) Hkv)).
      unfold stringEntryEqual, index in Hall. simpl in Hall.
      destruct (entries b !! k) as [vb|]; [|done].
      apply bool_decide_eq_true in Hall. by subst.
    + intros Heq [k v] Hin. apply list_elem_of_In, range_elem_of in Hin.
      unfold stringEntryEqual, index. simpl. rewrite <- Heq, Hin.
      by apply bool_decide_eq_true.
  - split; [done|]. intros Heq. by rewrite Heq in Hsz.
Qed.

Lemma bytesMapsEqual_spec (a b : GoMap (list byte)) :
  bytesMapsEqual a b = true ↔ entries a = entries b.
Proof.
  unfold bytesMapsEqual, len.
  destruct (Nat.eqb_spec (size (entries a)) (size (entries b))) as [Hsz|Hsz]; simpl.
  - rewrite forallb_forall. split.
    + intros Hall. apply entries_forall_eq; [done|].
      intros k v Hkv.
      specialize (Hall (k, v)). rewrite <- list_elem_of_In in Hall.
      specialize (Hall (proj2 (range_elem_of _ _ _ _ _) Hkv)).
      unfold bytesEntryEqual, index, bytes_Equal in Hall. simpl in Hall.
      destruct (entries b !! k) as [vb|]; [|done].
      apply bool_decide_eq_true in Hall. by subst.
    + intros Heq [k v] Hin. apply list_elem_of_In, range_elem_of in Hin.
      unfold bytesEntryEqual, index, bytes_Equal. simpl. rewrite <- Heq, Hin.
      by apply bool_decide_eq_true.
  - split; [done|]. intros Heq. by rewrite Heq in Hsz.
Qed.

(** ** Calls on the remote store *)

(** A computation that threads the state [S] of the remote store and stops
    at the first error, the way the Go code returns on [err != nil]. *)
Definition M (S A : Type) : Type := S -> (error + A) * S.

#[global] Instance M_ret {S} : MRet (M S) := fun A a s => (inr a, s).

#[global] Instance M_bind {S} : MBind (M S) := fun A B f m s =>
  match m s with
  | (inl e, s') => (inl e, s')
  | (inr a, s') => f a s'
  end.

(** The methods of [client.Client] the reconciler calls, on a store whose
    state has type [S].  The result [None] is the nil error. *)
Class Client (S : Type) : Type := {
  clientCreate : ConfigMap -> S -> option error * S;
  clientDelete : ConfigMap -> S -> option error * S;
}.

(** The remote store as an API server keeps it: one object under each
    (namespace, name); [Create] of a key that is taken is refused with
    [AlreadyExists], [Delete] goes by namespace and name and answers
    [NotFound] when nothing is there. *)
Definition memoryStore : Client (gmap NamespacedName ConfigMap) := {|
  clientCreate cm store :=
    match store !! keyOf cm with
    | Some _ =>
        (Some (StatusError "AlreadyExists"
                 ("configmaps " +:+ Name cm +:+ " already exists")), store)
    | None => (None, <[keyOf cm := cm]> store)
    end;
  clientDelete cm store :=
    match store !! keyOf cm with
    | Some _ => (None, delete (keyOf cm) store)
    | None =>
        (Some (StatusError "NotFound"
                 ("configmaps " +:+ Name cm +:+ " not found")), store)
    end;
|}.

(** A client that answers like [c], except that a [NotFound] on [Delete] is
    answered as the nil error. *)
Definition notFoundAsNil {S} (c : Client S) : Client S := {|
  clientCreate := @clientCreate S c;
  clientDelete cm s :=
    let '(err, s') := @clientDelete S c cm s in (IgnoreNotFound err, s');
|}.

(** Two chunks with the same labels, annotations, textual data and binary
    payload. *)
Definition sameContent (a d : ConfigMap) : Prop :=
  entries (Labels a) = entries (Labels d) ∧
  entries (Annotations a) = entries (Annotations d) ∧
  entries (Data a) = entries (Data d) ∧
  entries (BinaryData a) = entries (BinaryData d).

Section Reconciler.

Context {S : Type} {client : Client S}.

(** The four comparisons of lines 248-251. *)
Definition configMapsEqual (ecm cm : ConfigMap) : bool :=
  stringMapsEqual (Labels ecm) (Labels cm) &&
  stringMapsEqual (Annotations ecm) (Annotations cm) &&
  stringMapsEqual (Data ecm) (Data cm) &&
  bytesMapsEqual (BinaryData ecm) (BinaryData cm).

(** [if err := u.Client.Delete(ctx, &ecm); client.IgnoreNotFound(err) != nil]:
    the statement of lines 255-257 and of lines 264-266. *)
Definition deleteConfigMap (ecm : ConfigMap) : M S unit := fun s =>
  let '(err, s') := clientDelete ecm s in
  match IgnoreNotFound err with
  | Some _ => (inl (Errorf "delete configmap: " err), s')
  | None => (inr tt, s')
  end.

(** [if err := u.Client.Create(ctx, &cm); err != nil]: lines 259-261. *)
Definition createConfigMap (cm : ConfigMap) : M S unit := fun s =>
  let '(err, s') := clientCreate cm s in
  match err with
  | Some _ => (inl (Errorf "create configmap: " err), s')
  | None => (inr tt, s')
  end.

(** Lines 238-242: later entries of [actual] overwrite earlier ones. *)
Definition indexActual (actual : list ConfigMap) : gmap NamespacedName ConfigMap :=
  foldl (fun actualCms cm => <[keyOf cm := cm]> actualCms) ∅ actual.

(** The loop of lines 244-262 over [desired]; it returns the map
    [actualCms] as the loop leaves it. *)
Fixpoint ensureDesired (desired : list ConfigMap)
    (actualCms : gmap NamespacedName ConfigMap)
    : M S (gmap NamespacedName ConfigMap) :=
  match desired with
  | [] => mret actualCms
  | cm :: desired' =>
      let key := keyOf cm in
      match actualCms !! key with
      | Some ecm =>
          if configMapsEqual ecm cm
          then ensureDesired desired' (delete key actualCms)
          else
            deleteConfigMap ecm ;;
            createConfigMap cm ;;
            ensureDesired desired' actualCms
      | None =>
          createConfigMap cm ;;
          ensureDesired desired' actualCms
      end
  end.

(** The loop of lines 263-267 over the entries [range] yields. *)
Fixpoint deleteRemaining (remaining : list (NamespacedName * ConfigMap)) : M S unit :=
  match remaining with
  | [] => mret tt
  | (_, ecm) :: remaining' => deleteConfigMap ecm ;; deleteRemaining remaining'
  end.

Definition ensureDesiredConfigMaps (actual desired : list ConfigMap) : M S unit :=
  actualCms ← ensureDesired desired (indexActual actual);
  deleteRemaining (range NamespacedName ConfigMap actualCms).

End Reconciler.

(** ** The calls a run issues *)

(** One call on the remote store. *)
Inductive Op : Type :=
  | OpCreate (cm : ConfigMap)
  | OpDelete (cm : ConfigMap).

(** A call with the error the store answered. *)
Record Call : Type := mkCall {
  callOp : Op;
  callErr : option error;
}.

(** A client that appends every call and its answer to a log and passes the
    call on to [c]. *)
Definition recording {S} (c : Client S) : Client (S * list Call) := {|
  clientCreate cm st :=
    let '(err, s') := @clientCreate S c cm st.1 in
    (err, (s', st.2 ++ [mkCall (OpCreate cm) err]));
  clientDelete cm st :=
    let '(err, s') := @clientDelete S c cm st.1 in
    (err, (s', st.2 ++ [mkCall (OpDelete cm) err]));
|}.

(** What a run on a recording client returned, [inr tt] for the nil error,
    and the calls it issued, in their order. *)
Definition returned {S A} (run : (error + A) * (S * list Call)) : error + A := run.1.

Definition calls {S A} (run : (error + A) * (S * list Call)) : list Call := run.2.2.

(** The error the reconciler returns on the answer of a call, if any. *)
Definition callFailure (c : Call) : option error :=
  match callOp c with
  | OpDelete _ =>
      match IgnoreNotFound (callErr c) with
      | Some _ => Some (Errorf "delete configmap: " (callErr c))
      | None => None
      end
  | OpCreate _ =>
      match callErr c with
      | Some _ => Some (Errorf "create configmap: " (callErr c))
      | None => None
      end
  end.

(** The calls of the loop over [desired] when no call fails, and the map the
    loop leaves. *)
Fixpoint plannedOps (desired : list ConfigMap)
    (actualCms : gmap NamespacedName ConfigMap) : list Op :=
  match desired with
  | [] => []
  | cm :: desired' =>
      match actualCms !! keyOf cm with
      | Some ecm =>
          if configMapsEqual ecm cm
          then plannedOps desired' (delete (keyOf cm) actualCms)
          else OpDelete ecm :: OpCreate cm :: plannedOps desired' actualCms
      | None => OpCreate cm :: plannedOps desired' actualCms
      end
  end.

Fixpoint remainingAfter (desired : list ConfigMap)
    (actualCms : gmap NamespacedName ConfigMap) : gmap NamespacedName ConfigMap :=
  match desired with
  | [] => actualCms
  | cm :: desired' =>
      match actualCms !! keyOf cm with
      | Some ecm =>
          if configMapsEqual ecm cm
          then remainingAfter desired' (delete (keyOf cm) actualCms)
          else remainingAfter desired' actualCms
      | None => remainingAfter desired' actualCms
      end
  end.

Definition sweepOps (remaining : list (NamespacedName * ConfigMap)) : list Op :=
  (fun e => OpDelete e.2) <$> remaining.

Definition plan (actual desired : list ConfigMap) : list Op :=
  plannedOps desired (indexActual actual) ++
  sweepOps (range NamespacedName ConfigMap (remainingAfter desired (indexActual actual))).

(** The number of deletes of the key [k] among [ops]. *)
Definition isDeleteOf (k : NamespacedName) (op : Op) : bool :=
  match op with
  | OpDelete cm => bool_decide (keyOf cm = k)
  | OpCreate _ => false
  end.

Definition countDeletes (k : NamespacedName) (ops : list Op) : nat :=
  length (List.filter (isDeleteOf k) ops).

(** [Recorded r ops new]: the calls [new] of a computation that was to issue
    [ops] and ended with [r].  On success they are [ops], none failing; on
    the error [e] they are a prefix of [ops] whose last call, and no other,
    failed with [e]. *)
Definition Recorded {A} (r : error + A) (ops : list Op) (new : list Call) : Prop :=
  match r with
  | inr _ => callOp <$> new = ops ∧ Forall (fun c => callFailure c = None) new
  | inl e =>
      ∃ pre last, new = pre ++ [last] ∧
        Forall (fun c => callFailure c = None) pre ∧
        callFailure last = Some e ∧
        (callOp <$> new) `prefix_of` ops
  end.

(** [Issues m ops a]: from every state, [m] on a recording client appends
    calls that are [Recorded], and on success returns [a]. *)
Definition Issues {S A} (m : M (S * list Call) A) (ops : list Op) (a : A) : Prop :=
  ∀ st, ∃ new, (m st).2.2 = st.2 ++ new ∧ Recorded (m st).1 ops new ∧
               match (m st).1 with inr a' => a' = a | inl _ => True end.

Section Recording.

Context {S : Type} (c : Client S).

Lemma Issues_ret {A} (a : A) : Issues (S := S) (mret a) [] a.
Proof.
  intros st. exists []. simpl. rewrite app_nil_r. repeat split; constructor.
Qed.

Lemma Issues_bind {A B} (m : M (S * list Call) A) (f : A -> M (S * list Call) B)
    ops1 ops2 a b :
  Issues m ops1 a -> Issues (f a) ops2 b -> Issues (m ≫= f) (ops1 ++ ops2) b.
Proof.
  intros Hm Hf st. destruct (Hm st) as (new1 & Hlog1 & Hrec1 & Hres1).
  unfold mbind, M_bind. destruct (m st) as [[e|a'] st1]; simpl in *.
  - exists new1. split; [done|]. split; [|done].
    destruct Hrec1 as (pre & last & -> & Hpre & Hlast & Hpfx).
    exists pre, last. repeat split; try done.
    by apply prefix_app_r.
  - subst a'. destruct (Hf st1) as (new2 & Hlog2 & Hrec2 & Hres2).
    exists (new1 ++ new2). rewrite Hlog2, Hlog1, app_assoc. split; [done|].
    split; [|done]. destruct Hrec1 as [Hops1 Hok1].
    destruct (f a st1) as [[e|b'] st2]; simpl in *.
    + destruct Hrec2 as (pre & last & -> & Hpre & Hlast & Hpfx).
      exists (new1 ++ pre), last. rewrite app_assoc. repeat split; try done.
      * by apply Forall_app.
      * rewrite <- app_assoc, fmap_app, Hops1. by apply prefix_app.
    + destruct Hrec2 as [Hops2 Hok2]. split.
      * by rewrite fmap_app, Hops1, Hops2.
      * by apply Forall_app.
Qed.

Lemma Issues_delete ecm :
  Issues (deleteConfigMap (client := recording c) ecm) [OpDelete ecm] tt.
Proof.
  intros [s log]. unfold deleteConfigMap. simpl.
  destruct (clientDelete ecm s) as [err s'] eqn:Hcall. simpl.
  exists [mkCall (OpDelete ecm) err].
  destruct (IgnoreNotFound err) as [e|] eqn:Hign; simpl.
  - split; [done|]. split; [|done].
    exists [], (mkCall (OpDelete ecm) err). repeat split; try done.
    unfold callFailure. simpl. by rewrite Hign.
  - split; [done|]. split; [|done]. split; [done|].
    constructor; [|constructor]. unfold callFailure. simpl. by rewrite Hign.
Qed.

Lemma Issues_create cm :
  Issues (createConfigMap (client := recording c) cm) [OpCreate cm] tt.
Proof.
  intros [s log]. unfold createConfigMap. simpl.
  destruct (clientCreate cm s) as [err s'] eqn:Hcall. simpl.
  exists [mkCall (OpCreate cm) err].
  destruct err as [e|]; simpl.
  - split; [done|]. split; [|done].
    exists [], (mkCall (OpCreate cm) (Some e)). by repeat split.
  - split; [done|]. split; [|done]. split; [done|].
    constructor; [done|constructor].
Qed.

Lemma Issues_ensureDesired desired actualCms :
  Issues (ensureDesired (client := recording c) desired actualCms)
         (plannedOps desired actualCms) (remainingAfter desired actualCms).
Proof.
  revert actualCms. induction desired as [|cm desired IH]; intros actualCms; simpl.
  - apply Issues_ret.
  - destruct (actualCms !! keyOf cm) as [ecm|].
    + destruct (configMapsEqual ecm cm); [apply IH|].
      apply (Issues_bind _ _ [OpDelete ecm] _ tt); [apply Issues_delete|].
      apply (Issues_bind _ _ [OpCreate cm] _ tt); [apply Issues_create|].
      apply IH.
    + apply (Issues_bind _ _ [OpCreate cm] _ tt); [apply Issues_create|].
      apply IH.
Qed.

Lemma Issues_deleteRemaining remaining :
  Issues (deleteRemaining (client := recording c) remaining) (sweepOps remaining) tt.
Proof.
  induction remaining as [|[k ecm] remaining IH]; simpl.
  - apply Issues_ret.
  - apply (Issues_bind _ _ [OpDelete ecm] _ tt); [apply Issues_delete|apply IH].
Qed.

Lemma Issues_ensureDesiredConfigMaps actual desired :
  Issues (ensureDesiredConfigMaps (client := recording c) actual desired)
         (plan actual desired) tt.
Proof.
  unfold ensureDesiredConfigMaps, plan.
  eapply Issues_bind; [apply Issues_ensureDesired|apply Issues_deleteRemaining].
Qed.

End Recording.

(** *** What the loop leaves in [actualCms] *)

(** Every entry of the index sits under its own key. *)
Definition WellKeyed (m : gmap NamespacedName ConfigMap) : Prop :=
  ∀ k cm, m !! k = Some cm → keyOf cm = k.

Lemma WellKeyed_empty : WellKeyed ∅.
Proof. intros k cm. by rewrite lookup_empty. Qed.

Lemma WellKeyed_insert m cm : WellKeyed m → WellKeyed (<[keyOf cm := cm]> m).
Proof.
  intros Hm k cm'. rewrite lookup_insert. case_decide; [|apply Hm].
  intros [= <-]. done.
Qed.

Lemma WellKeyed_delete m k : WellKeyed m → WellKeyed (delete k m).
Proof.
  intros Hm k' cm'. rewrite lookup_delete. case_decide; [done|apply Hm].
Qed.

Lemma WellKeyed_foldl actual m :
  WellKeyed m →
  WellKeyed (foldl (fun actualCms cm => <[keyOf cm := cm]> actualCms) m actual).
Proof.
  revert m. induction actual as [|cm actual IH]; intros m Hm; simpl; [done|].
  apply IH. by apply WellKeyed_insert.
Qed.

Lemma WellKeyed_indexActual actual : WellKeyed (indexActual actual).
Proof. apply WellKeyed_foldl, WellKeyed_empty. Qed.

Lemma remainingAfter_lookup_Some desired m k v :
  remainingAfter desired m !! k = Some v → m !! k = Some v.
Proof.
  revert m. induction desired as [|cm desired IH]; intros m; simpl; [done|].
  destruct (m !! keyOf cm) as [ecm|]; [|apply IH].
  destruct (configMapsEqual ecm cm); [|apply IH].
  intros Hk. apply IH in Hk. rewrite lookup_delete in Hk. by case_decide.
Qed.

Lemma remainingAfter_lookup_other desired m k :
  k ∉ keyOf <$> desired → remainingAfter desired m !! k = m !! k.
Proof.
  revert m. induction desired as [|cm desired IH]; intros m Hk; simpl; [done|].
  rewrite fmap_cons, not_elem_of_cons in Hk. destruct Hk as [Hne Hk].
  destruct (m !! keyOf cm) as [ecm|]; [|by apply IH].
  destruct (configMapsEqual ecm cm); [|by apply IH].
  rewrite IH by done. by rewrite lookup_delete_ne.
Qed.

Lemma remainingAfter_lookup_equal desired m k :
  (∀ d a, d ∈ desired → m !! keyOf d = Some a → configMapsEqual a d = true) →
  NoDup (keyOf <$> desired) →
  k ∈ keyOf <$> desired → remainingAfter desired m !! k = None.
Proof.
  revert m. induction desired as [|cm desired IH]; intros m Heq Hnd Hk; simpl.
  - by apply elem_of_nil in Hk.
  - rewrite fmap_cons in Hnd, Hk. apply NoDup_cons in Hnd as [Hfresh Hnd].
    assert (∀ d, d ∈ desired → keyOf cm ≠ keyOf d) as Hkeys.
    { intros d Hd Heqk. apply Hfresh. rewrite Heqk. by apply list_elem_of_fmap_2. }
    destruct (m !! keyOf cm) as [a|] eqn:Ha.
    + rewrite (Heq cm a) by (done || by left).
      apply elem_of_cons in Hk as [->|Hk].
      * rewrite remainingAfter_lookup_other by done. apply lookup_delete_eq.
      * apply IH; [|done|done]. intros d a' Hd.
        rewrite lookup_delete_ne by (by apply Hkeys).
        apply Heq. by right.
    + apply elem_of_cons in Hk as [->|Hk].
      * by rewrite remainingAfter_lookup_other.
      * apply IH; [|done|done]. intros d a' Hd. apply Heq. by right.
Qed.

Lemma remainingAfter_lookup_replaced desired m d a :
  NoDup (keyOf <$> desired) → d ∈ desired →
  m !! keyOf d = Some a → configMapsEqual a d = false →
  remainingAfter desired m !! keyOf d = Some a.
Proof.
  revert m. induction desired as [|cm desired IH]; intros m Hnd Hd Ha Hne; simpl.
  - by apply elem_of_nil in Hd.
  - rewrite fmap_cons in Hnd. apply NoDup_cons in Hnd as [Hfresh Hnd].
    apply elem_of_cons in Hd as [->|Hd].
    + rewrite Ha, Hne. by rewrite remainingAfter_lookup_other.
    + assert (keyOf cm ≠ keyOf d) as Hkeys.
      { intros Heqk. apply Hfresh. rewrite Heqk. by apply list_elem_of_fmap_2. }
      destruct (m !! keyOf cm) as [ecm|]; [|by apply IH].
      destruct (configMapsEqual ecm cm); [|by apply IH].
      apply IH; try done. by rewrite lookup_delete_ne.
Qed.

(** *** The planned calls of the loop *)

Lemma plannedOps_create desired m cm :
  OpCreate cm ∈ plannedOps desired m → cm ∈ desired.
Proof.
  revert m. induction desired as [|d desired IH]; intros m; simpl.
  - by intros ?%elem_of_nil.
  - destruct (m !! keyOf d) as [ecm|].
    + destruct (configMapsEqual ecm d).
      * intros Hin. right. by eapply IH.
      * rewrite !elem_of_cons. intros [?|[[= ->]|Hin]]; [done|by left|].
        right. by eapply IH.
    + rewrite elem_of_cons. intros [[= ->]|Hin]; [by left|].
      right. by eapply IH.
Qed.

Lemma plannedOps_delete desired m ecm :
  OpDelete ecm ∈ plannedOps desired m →
  ∃ d, d ∈ desired ∧ m !! keyOf d = Some ecm.
Proof.
  revert m. induction desired as [|d desired IH]; intros m; simpl.
  - by intros ?%elem_of_nil.
  - destruct (m !! keyOf d) as [ecm'|] eqn:Hlk.
    + destruct (configMapsEqual ecm' d).
      * intros Hin. apply IH in Hin as (d' & Hd' & Hlk').
        exists d'. split; [by right|].
        rewrite lookup_delete in Hlk'. by case_decide.
      * rewrite !elem_of_cons. intros [[= ->]|[?|Hin]]; [|done|].
        -- exists d. split; [by left|done].
        -- apply IH in Hin as (d' & Hd' & Hlk'). exists d'. split; [by right|done].
    + rewrite elem_of_cons. intros [?|Hin]; [done|].
      apply IH in Hin as (d' & Hd' & Hlk'). exists d'. split; [by right|done].
Qed.

(** A planned create at a key whose old entry differs comes right after the
    delete of that entry. *)
Lemma plannedOps_create_after_delete desired m i cm a :
  NoDup (keyOf <$> desired) →
  plannedOps desired m !! i = Some (OpCreate cm) →
  m !! keyOf cm = Some a → configMapsEqual a cm = false →
  ∃ j, i = Datatypes.S j ∧ plannedOps desired m !! j = Some (OpDelete a).
Proof.
  revert m i. induction desired as [|d desired IH]; intros m i Hnd Hi Ha Hne; simpl in Hi |- *.
  - done.
  - rewrite fmap_cons in Hnd. apply NoDup_cons in Hnd as [Hfresh Hnd].
    assert (∀ ops j, ops !! j = Some (OpCreate cm) →
                     ops = plannedOps desired m ∨
                     ops = plannedOps desired (delete (keyOf d) m) →
                     keyOf d ≠ keyOf cm) as Hother.
    { intros ops j Hj Hops Heqk. apply Hfresh. rewrite Heqk.
      apply list_elem_of_fmap_2. apply list_elem_of_lookup_2 in Hj.
      destruct Hops as [->| ->]; by eapply plannedOps_create. }
    destruct (m !! keyOf d) as [ecm|] eqn:Hlk.
    + destruct (configMapsEqual ecm d) eqn:Heq.
      * apply IH; try done. rewrite lookup_delete_ne; [done|].
        eapply Hother; [done|by right].
      * destruct i as [|[|i]]; simpl in Hi; [done| |].
        -- injection Hi as ->. exists 0. split; [done|]. simpl. congruence.
        -- destruct (IH m i Hnd Hi Ha Hne) as (j & -> & Hj).
           exists (Datatypes.S (Datatypes.S j)). done.
    + destruct i as [|i]; simpl in Hi.
      * injection Hi as ->. congruence.
      * destruct (IH m i Hnd Hi Ha Hne) as (j & -> & Hj).
        exists (Datatypes.S j). done.
Qed.

(** Every replaced key has its delete and its create in the plan, in that
    order and next to each other. *)
Lemma plannedOps_replace desired m d a :
  NoDup (keyOf <$> desired) → d ∈ desired →
  m !! keyOf d = Some a → configMapsEqual a d = false →
  ∃ j, plannedOps desired m !! j = Some (OpDelete a) ∧
       plannedOps desired m !! Datatypes.S j = Some (OpCreate d).
Proof.
  revert m. induction desired as [|cm desired IH]; intros m Hnd Hd Ha Hne; simpl.
  - by apply elem_of_nil in Hd.
  - rewrite fmap_cons in Hnd. apply NoDup_cons in Hnd as [Hfresh Hnd].
    apply elem_of_cons in Hd as [->|Hd].
    + rewrite Ha, Hne. by exists 0.
    + assert (keyOf cm ≠ keyOf d) as Hkeys.
      { intros Heqk. apply Hfresh. rewrite Heqk. by apply list_elem_of_fmap_2. }
      destruct (m !! keyOf cm) as [ecm|].
      * destruct (configMapsEqual ecm cm).
        -- apply IH; try done. by rewrite lookup_delete_ne.
        -- destruct (IH m Hnd Hd Ha Hne) as (j & Hj1 & Hj2).
           by exists (Datatypes.S (Datatypes.S j)).
      * destruct (IH m Hnd Hd Ha Hne) as (j & Hj1 & Hj2).
        by exists (Datatypes.S j).
Qed.

Lemma plannedOps_all_equal desired m :
  (∀ d, d ∈ desired → ∃ a, m !! keyOf d = Some a ∧ configMapsEqual a d = true) →
  NoDup (keyOf <$> desired) →
  plannedOps desired m = [].
Proof.
  revert m. induction desired as [|cm desired IH]; intros m Heq Hnd; simpl; [done|].
  rewrite fmap_cons in Hnd. apply NoDup_cons in Hnd as [Hfresh Hnd].
  destruct (Heq cm) as (a & Ha & Hacm); [left|]. rewrite Ha, Hacm.
  apply IH; [|done]. intros d Hd.
  destruct (Heq d) as (a' & Ha' & Hd'); [by right|].
  exists a'. split; [|done]. rewrite lookup_delete_ne; [done|].
  intros Heqk. apply Hfresh. rewrite Heqk. by apply list_elem_of_fmap_2.
Qed.

(** *** The comparison of two chunks *)

Lemma configMapsEqual_spec ecm cm :
  configMapsEqual ecm cm = true ↔ sameContent ecm cm.
Proof.
  unfold configMapsEqual, sameContent.
  rewrite !andb_true_iff, !stringMapsEqual_spec, bytesMapsEqual_spec. tauto.
Qed.

(** *** The index of the actual chunks *)

Lemma foldl_index_lookup actual (m : gmap NamespacedName ConfigMap) k a :
  foldl (fun actualCms cm => <[keyOf cm := cm]> actualCms) m actual !! k = Some a →
  (a ∈ actual ∧ keyOf a = k) ∨ m !! k = Some a.
Proof.
  revert m. induction actual as [|cm actual IH]; intros m; simpl; [by right|].
  intros Hlk. apply IH in Hlk as [[Hin Hk]|Hlk].
  - left. split; [by right|done].
  - rewrite lookup_insert in Hlk. case_decide; [|by right].
    injection Hlk as ->. left. split; [by left|done].
Qed.

Lemma foldl_index_is_Some actual (m : gmap NamespacedName ConfigMap) k :
  k ∈ keyOf <$> actual ∨ is_Some (m !! k) →
  is_Some (foldl (fun actualCms cm => <[keyOf cm := cm]> actualCms) m actual !! k).
Proof.
  revert m. induction actual as [|cm actual IH]; intros m; simpl.
  - intros [Hin|Hs]; [by apply elem_of_nil in Hin|done].
  - rewrite elem_of_cons. intros [[->|Hin]|Hs]; apply IH.
    + right. rewrite lookup_insert_eq. by eexists.
    + by left.
    + right. rewrite lookup_insert. by case_decide.
Qed.

Lemma indexActual_lookup actual k a :
  indexActual actual !! k = Some a → a ∈ actual ∧ keyOf a = k.
Proof.
  intros [H|H]%foldl_index_lookup; [done|]. by rewrite lookup_empty in H.
Qed.

Lemma indexActual_is_Some actual k :
  k ∈ keyOf <$> actual → is_Some (indexActual actual !! k).
Proof. intros Hin. apply foldl_index_is_Some. by left. Qed.

(** *** Runs of the loop *)

Lemma ensureDesired_inr {St} `{!Client St} desired m (s : St) m' s' :
  ensureDesired desired m s = (inr m', s') → m' = remainingAfter desired m.
Proof.
  revert m s. induction desired as [|cm desired IH]; intros m s; simpl.
  - by intros [= <- _].
  - destruct (m !! keyOf cm) as [ecm|].
    + destruct (configMapsEqual ecm cm); [apply IH|].
      unfold mbind, M_bind.
      destruct (deleteConfigMap ecm s) as [[e|[]] s1]; [done|].
      destruct (createConfigMap cm s1) as [[e|[]] s2]; [done|]. apply IH.
    + unfold mbind, M_bind.
      destruct (createConfigMap cm s) as [[e|[]] s1]; [done|]. apply IH.
Qed.

Lemma ensureDesired_all_equal {St} `{!Client St} desired m (s : St) :
  (∀ d, d ∈ desired → ∃ a, m !! keyOf d = Some a ∧ configMapsEqual a d = true) →
  NoDup (keyOf <$> desired) →
  ensureDesired desired m s = (inr (remainingAfter desired m), s).
Proof.
  revert m. induction desired as [|cm desired IH]; intros m Heq Hnd; simpl; [done|].
  rewrite fmap_cons in Hnd. apply NoDup_cons in Hnd as [Hfresh Hnd].
  destruct (Heq cm) as (a & Ha & Hacm); [left|]. rewrite Ha, Hacm.
  apply IH; [|done]. intros d Hd.
  destruct (Heq d) as (a' & Ha' & Hd'); [by right|].
  exists a'. split; [|done]. rewrite lookup_delete_ne; [done|].
  intros Heqk. apply Hfresh. rewrite Heqk. by apply list_elem_of_fmap_2.
Qed.

Lemma Recorded_prefix {A} (r : error + A) ops new :
  Recorded r ops new → (callOp <$> new) `prefix_of` ops.
Proof.
  destruct r as [e|a]; simpl.
  - by intros (pre & last & _ & _ & _ & Hpfx).
  - by intros [-> _].
Qed.

Lemma sweepOps_lookup_create remaining i cm :
  sweepOps remaining !! i ≠ Some (OpCreate cm).
Proof.
  unfold sweepOps. rewrite list_lookup_fmap.
  by destruct (remaining !! i).
Qed.

Lemma plan_lookup_create actual desired i cm :
  plan actual desired !! i = Some (OpCreate cm) →
  plannedOps desired (indexActual actual) !! i = Some (OpCreate cm).
Proof.
  unfold plan. intros [H|[_ H]]%lookup_app_Some; [done|].
  by apply sweepOps_lookup_create in H.
Qed.

Lemma prefix_fmap_lookup (log : list Call) ops j op :
  (callOp <$> log) `prefix_of` ops → ops !! j = Some op → j < length log →
  ∃ err, log !! j = Some (mkCall op err).
Proof.
  intros [k ->] Hj Hlt.
  rewrite lookup_app_l in Hj by (by rewrite length_fmap).
  rewrite list_lookup_fmap in Hj.
  destruct (log !! j) as [[op' err]|]; [|done].
  injection Hj as <-. by exists err.
Qed.

Lemma split_at_last {A} (pre post pre' : list A) x last :
  pre ++ x :: post = pre' ++ [last] →
  (post = [] ∧ x = last) ∨ (x ∈ pre' ∧ post ≠ []).
Proof.
  destruct post as [|y post _] using rev_ind.
  - intros [_ ->]%app_inj_tail. by left.
  - replace (pre ++ x :: post ++ [y]) with ((pre ++ x :: post) ++ [y])
      by (by rewrite <- app_assoc).
    intros [<- _]%app_inj_tail. right. split.
    + apply elem_of_app. right. by left.
    + by destruct post.
Qed.

(** *** How often a key is deleted *)

Lemma countDeletes_app k ops1 ops2 :
  countDeletes k (ops1 ++ ops2) = countDeletes k ops1 + countDeletes k ops2.
Proof. unfold countDeletes. by rewrite List.filter_app, length_app. Qed.

Lemma countDeletes_plannedOps_other desired m k :
  WellKeyed m → k ∉ keyOf <$> desired → countDeletes k (plannedOps desired m) = 0.
Proof.
  revert m. induction desired as [|cm desired IH]; intros m Hm Hk; simpl; [done|].
  rewrite fmap_cons, not_elem_of_cons in Hk. destruct Hk as [Hne Hk].
  destruct (m !! keyOf cm) as [ecm|] eqn:Hlk.
  - destruct (configMapsEqual ecm cm).
    + apply IH; [by apply WellKeyed_delete|done].
    + unfold countDeletes in *. simpl.
      rewrite (Hm _ _ Hlk), bool_decide_eq_false_2 by done. by apply IH.
  - unfold countDeletes in *. simpl. by apply IH.
Qed.

Lemma countDeletes_plannedOps_replaced desired m d a :
  WellKeyed m → NoDup (keyOf <$> desired) → d ∈ desired →
  m !! keyOf d = Some a → configMapsEqual a d = false →
  countDeletes (keyOf d) (plannedOps desired m) = 1.
Proof.
  revert m. induction desired as [|cm desired IH]; intros m Hm Hnd Hd Ha Hne; simpl.
  - by apply elem_of_nil in Hd.
  - rewrite fmap_cons in Hnd. apply NoDup_cons in Hnd as [Hfresh Hnd].
    apply elem_of_cons in Hd as [->|Hd].
    + rewrite Ha, Hne. unfold countDeletes. simpl.
      rewrite (Hm _ _ Ha), bool_decide_eq_true_2 by done. simpl. f_equal.
      by apply (countDeletes_plannedOps_other desired m).
    + assert (keyOf cm ≠ keyOf d) as Hkeys.
      { intros Heqk. apply Hfresh. rewrite Heqk. by apply list_elem_of_fmap_2. }
      destruct (m !! keyOf cm) as [ecm|] eqn:Hlk.
      * destruct (configMapsEqual ecm cm).
        -- apply IH; try done; [by apply WellKeyed_delete|].
           by rewrite lookup_delete_ne.
        -- unfold countDeletes in *. simpl.
           rewrite (Hm _ _ Hlk), bool_decide_eq_false_2 by done. by apply IH.
      * unfold countDeletes in *. simpl. by apply IH.
Qed.

Lemma countDeletes_sweepOps remaining k :
  NoDup remaining.*1 → (∀ k' cm, (k', cm) ∈ remaining → keyOf cm = k') →
  countDeletes k (sweepOps remaining) = if decide (k ∈ remaining.*1) then 1 else 0.
Proof.
  induction remaining as [|[k' cm] remaining IH]; intros Hnd Hkeyed.
  - by rewrite decide_False by apply not_elem_of_nil.
  - rewrite fmap_cons in Hnd |- *. apply NoDup_cons in Hnd as [Hfresh Hnd]. simpl in Hfresh.
    assert (keyOf cm = k') as Hcm by (apply Hkeyed; by left).
    assert (countDeletes k (sweepOps remaining)
            = if decide (k ∈ remaining.*1) then 1 else 0) as IH'.
    { apply IH; [done|]. intros k'' cm' Hin. apply Hkeyed. by right. }
    unfold countDeletes in *. simpl. rewrite Hcm.
    destruct (decide (k' = k)) as [->|Hne].
    + rewrite bool_decide_eq_true_2 by done. simpl. rewrite IH'.
      rewrite decide_False by done. rewrite decide_True by (by left). done.
    + rewrite bool_decide_eq_false_2 by done. rewrite IH'.
      destruct (decide (k ∈ remaining.*1)) as [Hin|Hnin].
      * by rewrite decide_True by (by right).
      * rewrite decide_False; [done|]. rewrite not_elem_of_cons. naive_solver.
Qed.

Lemma countDeletes_sweep m k :
  WellKeyed m →
  countDeletes k (sweepOps (range NamespacedName ConfigMap m))
  = if decide (is_Some (m !! k)) then 1 else 0.
Proof.
  intros Hm. rewrite countDeletes_sweepOps.
  - destruct (decide (is_Some (m !! k))) as [[cm Hs]|Hn].
    + rewrite decide_True; [done|]. apply list_elem_of_fmap. exists (k, cm).
      split; [done|]. by apply range_elem_of.
    + rewrite decide_False; [done|]. intros ([k' cm] & -> & Hin)%list_elem_of_fmap.
      apply range_elem_of in Hin. apply Hn. by eexists.
  - apply range_NoDup_fst.
  - intros k' cm Hin%range_elem_of. by apply Hm.
Qed.

(** *** The reconciler against the store *)

Lemma deleteConfigMap_memoryStore ecm store :
  deleteConfigMap (client := memoryStore) ecm store = (inr tt, delete (keyOf ecm) store).
Proof.
  unfold deleteConfigMap. simpl.
  destruct (store !! keyOf ecm) eqn:Hlk; simpl; [done|].
  by rewrite delete_id.
Qed.

Lemma deleteRemaining_memoryStore remaining store r store' :
  deleteRemaining (client := memoryStore) remaining store = (r, store') →
  r = inr tt ∧ ∀ k ecm, (k, ecm) ∈ remaining → store' !! keyOf ecm = None.
Proof.
  revert store. induction remaining as [|[k ecm] remaining IH]; intros store; simpl.
  - intros [= <- <-]. split; [done|]. by intros k ecm ?%elem_of_nil.
  - unfold mbind, M_bind. rewrite deleteConfigMap_memoryStore.
    intros Hrun. split; [by apply IH in Hrun as [-> _]|].
    intros k' ecm' [[= -> ->]|Hin]%elem_of_cons.
    + clear IH. revert store Hrun.
      induction remaining as [|[k2 ecm2] remaining IH]; intros store; simpl.
      * intros [= _ <-]. apply lookup_delete_eq.
      * unfold mbind, M_bind. rewrite deleteConfigMap_memoryStore.
        rewrite delete_delete. apply IH.
    + apply IH in Hrun as [_ Hrun]. by eapply Hrun.
Qed.

(** *** Properties of a run *)

(** C4 (idempotence).  When the actual chunks and the desired chunks have the
    same keys and the same content under every key, the reconciler returns
    without error and calls neither [Create] nor [Delete]. *)
Theorem converged_set_is_left_alone {St} (c : Client St) (s : St)
    (actual desired : list ConfigMap) :
  NoDup (keyOf <$> desired) →
  (∀ k, k ∈ keyOf <$> actual ↔ k ∈ keyOf <$> desired) →
  (∀ a d, a ∈ actual → d ∈ desired → keyOf a = keyOf d → sameContent a d) →
  ensureDesiredConfigMaps (client := recording c) actual desired (s, [])
  = (inr tt, (s, [])).
Proof.
  intros Hnd Hkeys Hsame.
  assert (∀ d, d ∈ desired →
            ∃ a, indexActual actual !! keyOf d = Some a ∧ configMapsEqual a d = true)
    as Hall.
  { intros d Hd.
    destruct (indexActual_is_Some actual (keyOf d)) as [a Ha].
    { apply Hkeys. by apply list_elem_of_fmap_2. }
    exists a. split; [done|]. apply indexActual_lookup in Ha as [Hin Hk].
    apply configMapsEqual_spec. by apply Hsame. }
  unfold ensureDesiredConfigMaps, mbind, M_bind.
  rewrite ensureDesired_all_equal by done.
  assert (remainingAfter desired (indexActual actual) = ∅) as ->.
  { apply map_eq. intros k. rewrite lookup_empty.
    destruct (decide (k ∈ keyOf <$> desired)) as [Hin|Hnin].
    - apply remainingAfter_lookup_equal; [|done|done].
      intros d a Hd Ha. destruct (Hall d Hd) as (a' & Ha' & Heq). congruence.
    - rewrite remainingAfter_lookup_other by done.
      destruct (indexActual actual !! k) as [a|] eqn:Ha; [|done].
      apply indexActual_lookup in Ha as [Hin <-].
      exfalso. apply Hnin, Hkeys. by apply list_elem_of_fmap_2. }
  assert (range NamespacedName ConfigMap ∅ = []) as ->; [|done].
  apply Permutation_nil_r.
  rewrite (range_Permutation NamespacedName _ _ ConfigMap ∅).
  by rewrite map_to_list_empty.
Qed.

(** C2 (safe replace ordering).  For desired chunks with distinct keys: a
    [Create] at a key whose actual chunk differs in content is the call right
    after the [Delete] of that actual chunk, in every run; and a run that
    returns without error has issued that [Delete] and, next, that [Create]
    for every such key. *)
Theorem replace_deletes_then_creates {St} (c : Client St) (s : St)
    (actual desired : list ConfigMap) :
  NoDup (keyOf <$> desired) →
  let run := ensureDesiredConfigMaps (client := recording c) actual desired (s, []) in
  (∀ i cm err a,
     calls run !! i = Some (mkCall (OpCreate cm) err) →
     indexActual actual !! keyOf cm = Some a → configMapsEqual a cm = false →
     ∃ j err', i = Datatypes.S j ∧ calls run !! j = Some (mkCall (OpDelete a) err')) ∧
  (returned run = inr tt →
   ∀ d a,
     d ∈ desired →
     indexActual actual !! keyOf d = Some a → configMapsEqual a d = false →
     ∃ j err', calls run !! j = Some (mkCall (OpDelete a) err') ∧
               calls run !! Datatypes.S j = Some (mkCall (OpCreate d) None)).
Proof.
  intros Hnd run. unfold returned, calls.
  destruct (Issues_ensureDesiredConfigMaps c actual desired (s, []))
    as (new & Hlog & Hrec & _).
  fold run in Hlog, Hrec. simpl in Hlog. rewrite Hlog. split.
  - intros i cm err a Hi Ha Hne.
    pose proof (Recorded_prefix _ _ _ Hrec) as Hpfx.
    assert (plan actual desired !! i = Some (OpCreate cm)) as Hplan.
    { eapply prefix_lookup_Some; [|exact Hpfx].
      by rewrite list_lookup_fmap, Hi. }
    apply plan_lookup_create in Hplan.
    destruct (plannedOps_create_after_delete _ _ _ _ _ Hnd Hplan Ha Hne)
      as (j & -> & Hj).
    assert (plan actual desired !! j = Some (OpDelete a)) as Hj'.
    { unfold plan. by apply lookup_app_l_Some. }
    assert (j < length new) as Hlt.
    { apply lookup_lt_Some in Hi. lia. }
    destruct (prefix_fmap_lookup new _ j _ Hpfx Hj' Hlt) as [err' Herr'].
    by exists j, err'.
  - intros Hok d a Hd Ha Hne. rewrite Hok in Hrec. destruct Hrec as [Hops Hall].
    destruct (plannedOps_replace _ _ _ _ Hnd Hd Ha Hne) as (j & Hj1 & Hj2).
    assert ((callOp <$> new) !! j = Some (OpDelete a)) as Hd1.
    { rewrite Hops. unfold plan. by apply lookup_app_l_Some. }
    assert ((callOp <$> new) !! Datatypes.S j = Some (OpCreate d)) as Hc1.
    { rewrite Hops. unfold plan. by apply lookup_app_l_Some. }
    rewrite list_lookup_fmap in Hd1, Hc1.
    destruct (new !! j) as [[op1 err1]|] eqn:H1; [|done].
    destruct (new !! Datatypes.S j) as [[op2 err2]|] eqn:H2; [|done].
    simpl in Hd1, Hc1. injection Hd1 as ->. injection Hc1 as ->.
    exists j, err1. split; [done|].
    rewrite Forall_lookup in Hall. specialize (Hall _ _ H2).
    unfold callFailure in Hall. simpl in Hall. by destruct err2.
Qed.

(** C8 (not-found on delete).  Take any [Delete] a run has issued, on the
    replace path or in the final loop.  When the store answered nil or
    [NotFound], the run went on: it issued a further call or returned without
    error.  When the store answered another error, that [Delete] is the last
    call and the run returned the error "delete configmap: ..." built from
    it.  A [Create] the store answered with an error is the last call as
    well, and the run returned "create configmap: ...".  A store that answers
    nil where [c] answers [NotFound] yields the same run. *)
Theorem delete_not_found_is_success {St} (c : Client St) (s : St)
    (actual desired : list ConfigMap) :
  let run := ensureDesiredConfigMaps (client := recording c) actual desired (s, []) in
  (∀ pre x err post,
     calls run = pre ++ mkCall (OpDelete x) err :: post →
     (err = None ∨ (∃ e, err = Some e ∧ IsNotFound e = true) →
      post ≠ [] ∨ returned run = inr tt) ∧
     (∀ e, err = Some e → IsNotFound e = false →
      post = [] ∧ returned run = inl (Errorf "delete configmap: " (Some e)))) ∧
  (∀ pre x e post,
     calls run = pre ++ mkCall (OpCreate x) (Some e) :: post →
     post = [] ∧ returned run = inl (Errorf "create configmap: " (Some e))) ∧
  ensureDesiredConfigMaps (client := notFoundAsNil c) actual desired s
  = ensureDesiredConfigMaps (client := c) actual desired s.
Proof.
  intros run. unfold returned, calls. split; [|split].
  - destruct (Issues_ensureDesiredConfigMaps c actual desired (s, []))
      as (new & Hlog & Hrec & _).
    fold run in Hlog, Hrec. simpl in Hlog. rewrite Hlog.
    intros pre x err post Hsplit. split.
    + intros Herr.
      assert (callFailure (mkCall (OpDelete x) err) = None) as Hnone.
      { unfold callFailure. simpl.
        destruct Herr as [->|(e & -> & Hnf)]; simpl; [done|by rewrite Hnf]. }
      destruct run.1 as [e0|[]]; [|by right].
      destruct Hrec as (pre' & last & Hnew & Hpre & Hlast & _).
      rewrite Hnew in Hsplit. symmetry in Hsplit.
      apply split_at_last in Hsplit as [[_ <-]|[_ Hpost]]; [congruence|by left].
    + intros e -> Hnf.
      assert (callFailure (mkCall (OpDelete x) (Some e))
              = Some (Errorf "delete configmap: " (Some e))) as Hfail.
      { unfold callFailure. simpl. by rewrite Hnf. }
      destruct run.1 as [e0|[]].
      * destruct Hrec as (pre' & last & Hnew & Hpre & Hlast & _).
        rewrite Hnew in Hsplit. symmetry in Hsplit.
        apply split_at_last in Hsplit as [[-> <-]|[Hin _]].
        -- split; [done|]. congruence.
        -- rewrite Forall_forall in Hpre. apply Hpre in Hin. congruence.
      * destruct Hrec as [_ Hall]. rewrite Forall_forall in Hall.
        assert (mkCall (OpDelete x) (Some e) ∈ new) as Hin.
        { rewrite Hsplit. apply elem_of_app. right. by left. }
        apply Hall in Hin. congruence.
  - destruct (Issues_ensureDesiredConfigMaps c actual desired (s, []))
      as (new & Hlog & Hrec & _).
    fold run in Hlog, Hrec. simpl in Hlog. rewrite Hlog.
    intros pre x e post Hsplit.
    assert (callFailure (mkCall (OpCreate x) (Some e))
            = Some (Errorf "create configmap: " (Some e))) as Hfail by done.
    destruct run.1 as [e0|[]].
    + destruct Hrec as (pre' & last & Hnew & Hpre & Hlast & _).
      rewrite Hnew in Hsplit. symmetry in Hsplit.
      apply split_at_last in Hsplit as [[-> <-]|[Hin _]].
      * split; [done|]. congruence.
      * rewrite Forall_forall in Hpre. apply Hpre in Hin. congruence.
    + destruct Hrec as [_ Hall]. rewrite Forall_forall in Hall.
      assert (mkCall (OpCreate x) (Some e) ∈ new) as Hin.
      { rewrite Hsplit. apply elem_of_app. right. by left. }
      apply Hall in Hin. congruence.
  - assert (∀ ecm s0, deleteConfigMap (client := notFoundAsNil c) ecm s0
                      = deleteConfigMap (client := c) ecm s0) as Hdel.
    { intros ecm s0. unfold deleteConfigMap. simpl.
      destruct (clientDelete ecm s0) as [[e|] s1]; simpl; [|done].
      destruct (IsNotFound e) eqn:Hnf; simpl; [done|by rewrite Hnf]. }
    assert (∀ m s0, ensureDesired (client := notFoundAsNil c) desired m s0
                    = ensureDesired (client := c) desired m s0) as Hloop.
    { induction desired as [|cm desired' IH]; intros m s0; simpl; [done|].
      destruct (m !! keyOf cm) as [ecm|].
      - destruct (configMapsEqual ecm cm); [apply IH|].
        unfold mbind, M_bind. rewrite Hdel.
        destruct (deleteConfigMap ecm s0) as [[e|[]] s1]; [done|].
        change (createConfigMap (client := notFoundAsNil c) cm s1)
          with (createConfigMap (client := c) cm s1).
        destruct (createConfigMap cm s1) as [[e|[]] s2]; [done|]. apply IH.
      - unfold mbind, M_bind.
        change (createConfigMap (client := notFoundAsNil c) cm s0)
          with (createConfigMap (client := c) cm s0).
        destruct (createConfigMap cm s0) as [[e|[]] s1]; [done|]. apply IH. }
    unfold ensureDesiredConfigMaps, mbind, M_bind. rewrite Hloop.
    destruct (ensureDesired desired (indexActual actual) s) as [[e|m] s1]; [done|].
    generalize (range NamespacedName ConfigMap m). clear -Hdel.
    intros remaining. revert s1.
    induction remaining as [|[k ecm] remaining IH]; intros s1; simpl; [done|].
    unfold mbind, M_bind. rewrite Hdel.
    destruct (deleteConfigMap ecm s1) as [[e|[]] s2]; [done|]. apply IH.
Qed.

(** The store after the final loop: the keys of [remaining] are gone, the
    others are as before. *)
Lemma deleteRemaining_memoryStore_lookup remaining store r store' k :
  deleteRemaining (client := memoryStore) remaining store = (r, store') →
  (∀ k' ecm, (k', ecm) ∈ remaining → keyOf ecm = k') →
  store' !! k = if decide (k ∈ remaining.*1) then None else store !! k.
Proof.
  revert store.
  induction remaining as [|[k1 ecm1] remaining IH]; intros store Hrun Hkeyed;
    simpl in Hrun.
  - injection Hrun as _ <-. by rewrite decide_False by apply not_elem_of_nil.
  - unfold mbind, M_bind in Hrun. rewrite deleteConfigMap_memoryStore in Hrun.
    rewrite fmap_cons. simpl fst.
    rewrite (IH _ Hrun) by (intros k' ecm Hin; apply Hkeyed; by right).
    rewrite (Hkeyed k1 ecm1) by (by left).
    destruct (decide (k = k1)) as [->|Hne].
    + rewrite (decide_True (P := k1 ∈ k1 :: remaining.*1)) by (by left).
      destruct (decide (k1 ∈ remaining.*1)); [done|apply lookup_delete_eq].
    + rewrite lookup_delete_ne by done.
      destruct (decide (k ∈ remaining.*1)) as [Hin|Hnin].
      * by rewrite decide_True by (by right).
      * rewrite decide_False; [done|]. rewrite not_elem_of_cons. naive_solver.
Qed.

(** The loop when no key has to be replaced: it returns without error, keeps
    the store outside the desired keys, and leaves under every desired key a
    chunk with the desired content. *)
Lemma ensureDesired_memoryStore_no_replace desired
    (m store : gmap NamespacedName ConfigMap) :
  NoDup (keyOf <$> desired) →
  (∀ d, d ∈ desired → m !! keyOf d = store !! keyOf d) →
  (∀ d a, d ∈ desired → m !! keyOf d = Some a → configMapsEqual a d = true) →
  ∃ store',
    ensureDesired (client := memoryStore) desired m store
    = (inr (remainingAfter desired m), store') ∧
    (∀ k, k ∉ keyOf <$> desired → store' !! k = store !! k) ∧
    (∀ d, d ∈ desired → ∃ x, store' !! keyOf d = Some x ∧ sameContent x d).
Proof.
  revert m store.
  induction desired as [|cm desired IH]; intros m store Hnd Hagree Heq; simpl.
  - exists store. split; [done|]. split; [done|]. by intros d ?%elem_of_nil.
  - rewrite fmap_cons in Hnd. apply NoDup_cons in Hnd as [Hfresh Hnd].
    assert (∀ d, d ∈ desired → keyOf cm ≠ keyOf d) as Hkeys.
    { intros d Hd Heqk. apply Hfresh. rewrite Heqk. by apply list_elem_of_fmap_2. }
    destruct (m !! keyOf cm) as [a|] eqn:Ha.
    + rewrite (Heq cm a) by (done || by left).
      destruct (IH (delete (keyOf cm) m) store Hnd) as (store' & Hrun & Hout & Hin).
      { intros d Hd. rewrite lookup_delete_ne by (by apply Hkeys).
        apply Hagree. by right. }
      { intros d a' Hd. rewrite lookup_delete_ne by (by apply Hkeys).
        apply Heq. by right. }
      exists store'. split; [done|]. split.
      * intros k [_ Hk]%not_elem_of_cons. by apply Hout.
      * intros d [->|Hd]%elem_of_cons; [|by apply Hin].
        exists a. rewrite Hout by done. rewrite <- Hagree, Ha by (by left).
        split; [done|]. apply configMapsEqual_spec, Heq; [by left|done].
    + assert (store !! keyOf cm = None) as Hfree.
      { rewrite <- Hagree by (by left). done. }
      destruct (IH m (<[keyOf cm := cm]> store) Hnd) as (store' & Hrun & Hout & Hin).
      { intros d Hd. rewrite lookup_insert_ne by (by apply Hkeys).
        apply Hagree. by right. }
      { intros d a' Hd. apply Heq. by right. }
      exists store'. split; [|split].
      * unfold mbind, M_bind, createConfigMap. simpl. by rewrite Hfree.
      * intros k [Hne Hk]%not_elem_of_cons.
        rewrite Hout by done. by rewrite lookup_insert_ne.
      * intros d [->|Hd]%elem_of_cons; [|by apply Hin].
        exists cm. rewrite Hout by done. rewrite lookup_insert_eq.
        split; [done|]. by repeat split.
Qed.

(** X2 (lines 237-269). Convergence where the code has it: let the store hold
    the actual chunks and the desired chunks have distinct keys. When every
    actual chunk under a desired key already has the desired content, so that
    nothing is to be replaced, the run returns without error and the store
    then holds a chunk of the desired content under every desired key, and
    nothing else. *)
Lemma converges_when_nothing_is_replaced (actual desired : list ConfigMap) :
  NoDup (keyOf <$> desired) →
  (∀ d a, d ∈ desired → indexActual actual !! keyOf d = Some a →
          configMapsEqual a d = true) →
  ∃ store',
    ensureDesiredConfigMaps (client := memoryStore) actual desired (indexActual actual)
    = (inr tt, store') ∧
    (∀ d, d ∈ desired → ∃ x, store' !! keyOf d = Some x ∧ sameContent x d) ∧
    (∀ k, k ∉ keyOf <$> desired → store' !! k = None).
Proof.
  intros Hnd Heq.
  destruct (ensureDesired_memoryStore_no_replace desired
              (indexActual actual) (indexActual actual) Hnd)
    as (store1 & Hloop & Hout & Hin); [done|done|].
  unfold ensureDesiredConfigMaps, mbind, M_bind. rewrite Hloop.
  set (remaining := range NamespacedName ConfigMap
                      (remainingAfter desired (indexActual actual))).
  destruct (deleteRemaining remaining store1) as [r store'] eqn:Hsweep.
  assert (∀ k' ecm, (k', ecm) ∈ remaining → keyOf ecm = k') as Hkeyed.
  { intros k' ecm Hlk%range_elem_of%remainingAfter_lookup_Some.
    by apply WellKeyed_indexActual in Hlk. }
  assert (∀ k, k ∈ remaining.*1 ↔
               is_Some (remainingAfter desired (indexActual actual) !! k)) as Hdom.
  { intros k. split.
    - intros ([k' cm] & -> & Hlk%range_elem_of)%list_elem_of_fmap. by eexists.
    - intros [cm Hlk]. apply list_elem_of_fmap. exists (k, cm).
      split; [done|]. by apply range_elem_of. }
  pose proof (deleteRemaining_memoryStore _ _ _ _ Hsweep) as [-> _].
  exists store'. split; [done|]. split.
  - intros d Hd. destruct (Hin d Hd) as (x & Hx & Hsame). exists x.
    split; [|done].
    rewrite (deleteRemaining_memoryStore_lookup _ _ _ _ _ Hsweep Hkeyed).
    rewrite decide_False; [done|]. rewrite Hdom.
    rewrite remainingAfter_lookup_equal; [by intros [? ?]|done|done|].
    by apply list_elem_of_fmap_2.
  - intros k Hk.
    rewrite (deleteRemaining_memoryStore_lookup _ _ _ _ _ Hsweep Hkeyed).
    destruct (decide (k ∈ remaining.*1)) as [Hrem|Hrem]; [done|].
    rewrite Hout by done. rewrite Hdom in Hrem.
    rewrite remainingAfter_lookup_other in Hrem by done.
    by apply eq_None_not_Some.
Qed.

(** C1 (convergence), where the code departs from it.  Let the desired
    chunks have distinct keys and let [d] be a desired chunk whose key holds
    an actual chunk of other content.  The loop deletes that chunk and
    creates [d], but leaves the key in [actualCms], so the final loop over
    [actualCms] deletes by that key again: after a run without error the
    store holds nothing under the key of [d]. *)
Theorem replaced_chunk_is_lost (actual desired : list ConfigMap)
    (store store' : gmap NamespacedName ConfigMap) (d a : ConfigMap) :
  NoDup (keyOf <$> desired) → d ∈ desired →
  indexActual actual !! keyOf d = Some a → configMapsEqual a d = false →
  ensureDesiredConfigMaps (client := memoryStore) actual desired store
  = (inr tt, store') →
  store' !! keyOf d = None.
Proof.
  intros Hnd Hd Ha Hne. unfold ensureDesiredConfigMaps, mbind, M_bind.
  destruct (ensureDesired desired (indexActual actual) store) as [[e|m] s1] eqn:Hloop;
    [done|].
  apply ensureDesired_inr in Hloop. subst m. intros Hsweep.
  apply deleteRemaining_memoryStore in Hsweep as [_ Hsweep].
  pose proof (remainingAfter_lookup_replaced _ _ _ _ Hnd Hd Ha Hne) as Hleft.
  apply range_elem_of in Hleft. apply Hsweep in Hleft.
  apply indexActual_lookup in Ha as [_ Hk]. by rewrite Hk in Hleft.
Qed.

(** X9 (lines 263-267). The sweep: a key of the actual chunks that no desired
    chunk has is deleted once in a run that returns without error. *)
Lemma stale_key_is_deleted_once {St} (c : Client St) (s : St)
    (actual desired : list ConfigMap) (k : NamespacedName) :
  let run := ensureDesiredConfigMaps (client := recording c) actual desired (s, []) in
  returned run = inr tt →
  k ∈ keyOf <$> actual → k ∉ keyOf <$> desired →
  countDeletes k (callOp <$> calls run) = 1.
Proof.
  intros run. unfold returned, calls. intros Hok Hin Hnin.
  destruct (Issues_ensureDesiredConfigMaps c actual desired (s, []))
    as (new & Hlog & Hrec & _).
  fold run in Hlog, Hrec. simpl in Hlog. rewrite Hlog.
  rewrite Hok in Hrec. destruct Hrec as [-> _].
  unfold plan. rewrite countDeletes_app.
  rewrite countDeletes_plannedOps_other by (done || apply WellKeyed_indexActual).
  rewrite countDeletes_sweep.
  - rewrite remainingAfter_lookup_other by done.
    by rewrite decide_True by (by apply indexActual_is_Some).
  - intros k' cm Hlk%remainingAfter_lookup_Some.
    by apply WellKeyed_indexActual in Hlk.
Qed.

(** C3 (garbage collection), where the code departs from it.  A key that
    is replaced is deleted twice in a run that returns without error: once
    before the [Create] and once more in the final loop over [actualCms]. *)
Theorem replaced_key_is_deleted_twice {St} (c : Client St) (s : St)
    (actual desired : list ConfigMap) (d a : ConfigMap) :
  let run := ensureDesiredConfigMaps (client := recording c) actual desired (s, []) in
  NoDup (keyOf <$> desired) → d ∈ desired →
  indexActual actual !! keyOf d = Some a → configMapsEqual a d = false →
  returned run = inr tt →
  countDeletes (keyOf d) (callOp <$> calls run) = 2.
Proof.
  intros run. unfold returned, calls. intros Hnd Hd Ha Hne Hok.
  destruct (Issues_ensureDesiredConfigMaps c actual desired (s, []))
    as (new & Hlog & Hrec & _).
  fold run in Hlog, Hrec. simpl in Hlog. rewrite Hlog.
  rewrite Hok in Hrec. destruct Hrec as [-> _].
  unfold plan. rewrite countDeletes_app.
  rewrite (countDeletes_plannedOps_replaced _ _ _ a)
    by (done || apply WellKeyed_indexActual).
  rewrite countDeletes_sweep.
  - rewrite (remainingAfter_lookup_replaced _ _ _ a) by done.
    by rewrite decide_True by done.
  - intros k' cm Hlk%remainingAfter_lookup_Some.
    by apply WellKeyed_indexActual in Hlk.
Qed.

(** *** Further properties of a run *)

(** The index of a listing without repeated keys holds every listed chunk
    under its key. *)
Lemma foldl_index_lookup_other actual (m : gmap NamespacedName ConfigMap) k :
  k ∉ keyOf <$> actual →
  foldl (fun actualCms cm => <[keyOf cm := cm]> actualCms) m actual !! k = m !! k.
Proof.
  revert m. induction actual as [|cm actual IH]; intros m Hk; simpl; [done|].
  rewrite fmap_cons, not_elem_of_cons in Hk. destruct Hk as [Hne Hk].
  rewrite IH by done. by rewrite lookup_insert_ne.
Qed.

Lemma indexActual_lookup_listed actual a :
  NoDup (keyOf <$> actual) → a ∈ actual → indexActual actual !! keyOf a = Some a.
Proof.
  unfold indexActual. generalize (∅ : gmap NamespacedName ConfigMap).
  induction actual as [|cm actual IH]; intros m Hnd Ha; simpl.
  - by apply elem_of_nil in Ha.
  - rewrite fmap_cons in Hnd. apply NoDup_cons in Hnd as [Hfresh Hnd].
    apply elem_of_cons in Ha as [->|Ha]; [|by apply IH].
    rewrite foldl_index_lookup_other by done. apply lookup_insert_eq.
Qed.

(** The map the loop leaves, at a desired key: the old chunk where it was
    replaced, nothing where it was found equal or where there was none. *)
Lemma remainingAfter_lookup_desired desired m d :
  NoDup (keyOf <$> desired) → d ∈ desired →
  remainingAfter desired m !! keyOf d
  = match m !! keyOf d with
    | Some a => if configMapsEqual a d then None else Some a
    | None => None
    end.
Proof.
  revert m. induction desired as [|cm desired IH]; intros m Hnd Hd; simpl.
  - by apply elem_of_nil in Hd.
  - rewrite fmap_cons in Hnd. apply NoDup_cons in Hnd as [Hfresh Hnd].
    apply elem_of_cons in Hd as [->|Hd].
    + destruct (m !! keyOf cm) as [a|] eqn:Ha.
      * destruct (configMapsEqual a cm).
        -- rewrite remainingAfter_lookup_other by done. apply lookup_delete_eq.
        -- by rewrite remainingAfter_lookup_other.
      * by rewrite remainingAfter_lookup_other.
    + assert (keyOf cm ≠ keyOf d) as Hkeys.
      { intros Heqk. apply Hfresh. rewrite Heqk. by apply list_elem_of_fmap_2. }
      destruct (m !! keyOf cm) as [ecm|]; [|by apply IH].
      destruct (configMapsEqual ecm cm); [|by apply IH].
      rewrite IH by done. by rewrite lookup_delete_ne.
Qed.

(** The chunk the loop leaves in the store under the key of [d]. *)
Definition chunkAfterLoop (m : gmap NamespacedName ConfigMap) (d : ConfigMap) : ConfigMap :=
  match m !! keyOf d with
  | Some a => if configMapsEqual a d then a else d
  | None => d
  end.

(** The loop against the store, for desired chunks with distinct keys and an
    index that agrees with the store on them: it returns without error,
    leaves under every desired key the old chunk where that is equal and the
    desired chunk otherwise, and keeps the rest of the store. *)
Lemma ensureDesired_memoryStore desired (m store : gmap NamespacedName ConfigMap) :
  NoDup (keyOf <$> desired) → WellKeyed m →
  (∀ d, d ∈ desired → m !! keyOf d = store !! keyOf d) →
  ∃ store',
    ensureDesired (client := memoryStore) desired m store
    = (inr (remainingAfter desired m), store') ∧
    (∀ k, k ∉ keyOf <$> desired → store' !! k = store !! k) ∧
    (∀ d, d ∈ desired → store' !! keyOf d = Some (chunkAfterLoop m d)).
Proof.
  revert m store.
  induction desired as [|cm desired IH]; intros m store Hnd Hwk Hagree; simpl.
  - exists store. split; [done|]. split; [done|]. by intros d ?%elem_of_nil.
  - rewrite fmap_cons in Hnd. apply NoDup_cons in Hnd as [Hfresh Hnd].
    assert (∀ d, d ∈ desired → keyOf cm ≠ keyOf d) as Hkeys.
    { intros d Hd Heqk. apply Hfresh. rewrite Heqk. by apply list_elem_of_fmap_2. }
    assert (∀ (m' store1 store' : gmap NamespacedName ConfigMap),
              (∀ d, d ∈ desired → m' !! keyOf d = m !! keyOf d) →
              (∀ k, k ≠ keyOf cm → store1 !! k = store !! k) →
              store1 !! keyOf cm = Some (chunkAfterLoop m cm) →
              (∀ k, k ∉ keyOf <$> desired → store' !! k = store1 !! k) →
              (∀ d, d ∈ desired → store' !! keyOf d = Some (chunkAfterLoop m' d)) →
              (∀ k, k ∉ keyOf <$> cm :: desired → store' !! k = store !! k) ∧
              (∀ d, d ∈ cm :: desired → store' !! keyOf d = Some (chunkAfterLoop m d)))
      as Hfinish.
    { intros m' store1 store' Hm' Hother Hcm Hout Hin. split.
      - intros k [Hne Hk]%not_elem_of_cons. rewrite Hout by done. by apply Hother.
      - intros d [->|Hd]%elem_of_cons.
        + by rewrite Hout.
        + rewrite Hin by done. unfold chunkAfterLoop. by rewrite Hm'. }
    destruct (m !! keyOf cm) as [a|] eqn:Ha.
    + destruct (configMapsEqual a cm) eqn:Heq.
      * destruct (IH (delete (keyOf cm) m) store Hnd) as (store' & Hrun & Hout & Hin).
        { by apply WellKeyed_delete. }
        { intros d Hd. rewrite lookup_delete_ne by (by apply Hkeys).
          apply Hagree. by right. }
        exists store'. split; [done|].
        apply (Hfinish (delete (keyOf cm) m) store store'); try done.
        -- intros d Hd. by rewrite lookup_delete_ne by (by apply Hkeys).
        -- unfold chunkAfterLoop. rewrite Ha, Heq. rewrite <- Hagree by (by left). done.
      * destruct (IH m (<[keyOf cm := cm]> store) Hnd Hwk)
          as (store' & Hrun & Hout & Hin).
        { intros d Hd. rewrite lookup_insert_ne by (by apply Hkeys).
          apply Hagree. by right. }
        exists store'. split.
        -- unfold mbind, M_bind. rewrite deleteConfigMap_memoryStore.
           unfold createConfigMap. simpl. rewrite (Hwk _ _ Ha).
           rewrite lookup_delete_eq. by rewrite insert_delete_eq.
        -- apply (Hfinish m (<[keyOf cm := cm]> store) store'); try done.
           ++ intros k Hne. by rewrite lookup_insert_ne.
           ++ unfold chunkAfterLoop. rewrite Ha, Heq. apply lookup_insert_eq.
    + destruct (IH m (<[keyOf cm := cm]> store) Hnd Hwk)
        as (store' & Hrun & Hout & Hin).
      { intros d Hd. rewrite lookup_insert_ne by (by apply Hkeys).
        apply Hagree. by right. }
      exists store'. split.
      * unfold mbind, M_bind, createConfigMap. simpl.
        rewrite <- (Hagree cm) by (by left). by rewrite Ha.
      * apply (Hfinish m (<[keyOf cm := cm]> store) store'); try done.
        -- intros k Hne. by rewrite lookup_insert_ne.
        -- unfold chunkAfterLoop. rewrite Ha. apply lookup_insert_eq.
Qed.

(** The whole run against the store that holds the actual chunks, for
    desired chunks with distinct keys: what it returns and what the store
    holds afterwards. *)
Lemma memoryStore_run (actual desired : list ConfigMap) :
  NoDup (keyOf <$> desired) →
  ∃ store',
    ensureDesiredConfigMaps (client := memoryStore) actual desired (indexActual actual)
    = (inr tt, store') ∧
    (∀ d, d ∈ desired →
       store' !! keyOf d
       = match indexActual actual !! keyOf d with
         | Some a => if configMapsEqual a d then Some a else None
         | None => Some d
         end) ∧
    (∀ k, k ∉ keyOf <$> desired → store' !! k = None).
Proof.
  intros Hnd.
  destruct (ensureDesired_memoryStore desired (indexActual actual) (indexActual actual)
              Hnd (WellKeyed_indexActual actual))
    as (store1 & Hloop & Hout & Hin); [done|].
  unfold ensureDesiredConfigMaps, mbind, M_bind. rewrite Hloop.
  set (remaining := range NamespacedName ConfigMap
                      (remainingAfter desired (indexActual actual))).
  destruct (deleteRemaining remaining store1) as [r store'] eqn:Hsweep.
  assert (∀ k' ecm, (k', ecm) ∈ remaining → keyOf ecm = k') as Hkeyed.
  { intros k' ecm Hlk%range_elem_of%remainingAfter_lookup_Some.
    by apply WellKeyed_indexActual in Hlk. }
  assert (∀ k, k ∈ remaining.*1 ↔
               is_Some (remainingAfter desired (indexActual actual) !! k)) as Hdom.
  { intros k. split.
    - intros ([k' cm] & -> & Hlk%range_elem_of)%list_elem_of_fmap. by eexists.
    - intros [cm Hlk]. apply list_elem_of_fmap. exists (k, cm).
      split; [done|]. by apply range_elem_of. }
  pose proof (deleteRemaining_memoryStore _ _ _ _ Hsweep) as [-> _].
  exists store'. split; [done|]. split.
  - intros d Hd.
    rewrite (deleteRemaining_memoryStore_lookup _ _ _ _ _ Hsweep Hkeyed).
    pose proof (remainingAfter_lookup_desired desired (indexActual actual) d Hnd Hd)
      as Hleft.
    rewrite (Hin d Hd). unfold chunkAfterLoop.
    destruct (indexActual actual !! keyOf d) as [a|].
    + destruct (configMapsEqual a d).
      * rewrite decide_False; [done|]. rewrite Hdom, Hleft. by intros [? ?].
      * rewrite decide_True; [done|]. rewrite Hdom, Hleft. by eexists.
    + rewrite decide_False; [done|]. rewrite Hdom, Hleft. by intros [? ?].
  - intros k Hk.
    rewrite (deleteRemaining_memoryStore_lookup _ _ _ _ _ Hsweep Hkeyed).
    destruct (decide (k ∈ remaining.*1)) as [Hrem|Hrem]; [done|].
    rewrite Hout by done. rewrite Hdom in Hrem.
    rewrite remainingAfter_lookup_other in Hrem by done.
    by apply eq_None_not_Some.
Qed.

(** X1 (lines 237-269). The whole run against the store that holds the actual
    chunks, for desired chunks with distinct keys. It returns without error.
    Afterwards a desired key holds the actual chunk where that had the desired
    content, the desired chunk where the key was free, and nothing where the
    actual chunk had other content; no other key holds anything, so that
    whatever the store then holds has the content of the desired chunk of its
    key. *)
Theorem run_on_store_of_actual (actual desired : list ConfigMap) :
  NoDup (keyOf <$> desired) →
  ∃ store',
    ensureDesiredConfigMaps (client := memoryStore) actual desired (indexActual actual)
    = (inr tt, store') ∧
    (∀ d, d ∈ desired →
       store' !! keyOf d
       = match indexActual actual !! keyOf d with
         | Some a => if configMapsEqual a d then Some a else None
         | None => Some d
         end) ∧
    (∀ k, k ∉ keyOf <$> desired → store' !! k = None) ∧
    (∀ k x, store' !! k = Some x →
            ∃ d, d ∈ desired ∧ keyOf d = k ∧ sameContent x d).
Proof.
  intros Hnd.
  destruct (memoryStore_run actual desired Hnd) as (store' & Hrun & Hin & Hout).
  exists store'. split; [done|]. split; [done|]. split; [done|].
  intros k x Hx.
  destruct (decide (k ∈ keyOf <$> desired)) as [Hk|Hk].
  - apply list_elem_of_fmap in Hk as (d & -> & Hd).
    exists d. split; [done|]. split; [done|].
    rewrite (Hin d Hd) in Hx.
    destruct (indexActual actual !! keyOf d) as [a|].
    + destruct (configMapsEqual a d) eqn:Heq; [|done].
      injection Hx as <-. by apply configMapsEqual_spec.
    + injection Hx as <-. by repeat split.
  - rewrite Hout in Hx by done. done.
Qed.

(** X3 (lines 237-269). Running twice converges. Let the desired chunks have
    distinct keys, let a first run start from the store of the actual chunks,
    and let a second run start from the store the first one left, with that
    store listed as its actual chunks. The second run returns without error,
    and the store then holds a chunk of the desired content under every
    desired key and nothing else: the chunks the first run lost are created
    again. *)
Theorem two_runs_converge (actual actual1 desired : list ConfigMap)
    (store1 : gmap NamespacedName ConfigMap) r1 :
  NoDup (keyOf <$> desired) →
  ensureDesiredConfigMaps (client := memoryStore) actual desired (indexActual actual)
  = (r1, store1) →
  indexActual actual1 = store1 →
  ∃ store2,
    ensureDesiredConfigMaps (client := memoryStore) actual1 desired store1
    = (inr tt, store2) ∧
    (∀ d, d ∈ desired → ∃ x, store2 !! keyOf d = Some x ∧ sameContent x d) ∧
    (∀ k, k ∉ keyOf <$> desired → store2 !! k = None).
Proof.
  intros Hnd Hrun1 Hlist.
  destruct (memoryStore_run actual desired Hnd) as (store1' & Hrun1' & Hin1 & _).
  rewrite Hrun1 in Hrun1'. injection Hrun1' as _ <-.
  destruct (memoryStore_run actual1 desired Hnd) as (store2 & Hrun2 & Hin2 & Hout2).
  rewrite Hlist in Hrun2, Hin2.
  exists store2. split; [done|]. split; [|done].
  intros d Hd. rewrite (Hin2 d Hd), (Hin1 d Hd).
  destruct (indexActual actual !! keyOf d) as [a|].
  - destruct (configMapsEqual a d) eqn:Heq.
    + rewrite Heq. exists a. split; [done|]. by apply configMapsEqual_spec.
    + exists d. split; [done|]. by repeat split.
  - assert (configMapsEqual d d = true) as ->.
    { apply configMapsEqual_spec. by repeat split. }
    exists d. split; [done|]. by repeat split.
Qed.

(** X4 (lines 237-269). When the actual chunks and the desired chunks have the
    same keys, one by one, and every actual chunk differs in content from its
    counterpart, the run returns without error and leaves the store empty. *)
Theorem replacing_every_chunk_empties_the_store (actual desired : list ConfigMap) :
  NoDup (keyOf <$> desired) →
  keyOf <$> actual = keyOf <$> desired →
  Forall2 (fun a d => ¬ sameContent a d) actual desired →
  ensureDesiredConfigMaps (client := memoryStore) actual desired (indexActual actual)
  = (inr tt, ∅).
Proof.
  intros Hnd Hkeys Hdiff.
  destruct (memoryStore_run actual desired Hnd) as (store' & Hrun & Hin & Hout).
  rewrite Hrun. f_equal. apply map_eq. intros k. rewrite lookup_empty.
  destruct (decide (k ∈ keyOf <$> desired)) as [Hk|Hk]; [|by apply Hout].
  apply list_elem_of_fmap in Hk as (d & -> & Hd).
  rewrite (Hin d Hd).
  apply list_elem_of_lookup in Hd as [i Hi].
  destruct (Forall2_lookup_r _ _ _ _ _ Hdiff Hi) as (a & Ha & Hne).
  assert (keyOf a = keyOf d) as Hk.
  { assert ((keyOf <$> actual) !! i = (keyOf <$> desired) !! i) as Hlk
      by (by rewrite Hkeys).
    rewrite !list_lookup_fmap, Ha, Hi in Hlk. simpl in Hlk. congruence. }
  rewrite <- Hk, indexActual_lookup_listed.
  - destruct (configMapsEqual a d) eqn:Heq; [|done].
    by apply configMapsEqual_spec in Heq.
  - by rewrite Hkeys.
  - by eapply list_elem_of_lookup_2.
Qed.

(** X5 (lines 248-251). The comparison of lines 248-251 is true exactly when
    labels, annotations, textual data and binary data have the same entries.
    It is an equivalence on config maps, and name, namespace, owner references
    and the immutable flag play no part in it. *)
Theorem configMapsEqual_compares_four_maps :
  (∀ a d, configMapsEqual a d = true ↔ sameContent a d) ∧
  (∀ a, configMapsEqual a a = true) ∧
  (∀ a d, configMapsEqual a d = configMapsEqual d a) ∧
  (∀ a b d, configMapsEqual a b = true → configMapsEqual b d = true →
            configMapsEqual a d = true) ∧
  (∀ a d name namespace owners immutable,
     configMapsEqual
       (mkConfigMap name namespace (Labels a) (Annotations a) owners immutable
          (Data a) (BinaryData a)) d
     = configMapsEqual a d).
Proof.
  assert (∀ x y : bool, (x = true ↔ y = true) → x = y) as Hbool.
  { intros [] [] [H1 H2]; try done; [by rewrite H1|by rewrite H2]. }
  split; [apply configMapsEqual_spec|]. split; [|split; [|split]].
  - intros a. apply configMapsEqual_spec. by repeat split.
  - intros a d. apply Hbool. rewrite !configMapsEqual_spec. unfold sameContent.
    split; intros (-> & -> & -> & ->); done.
  - intros a b d. rewrite !configMapsEqual_spec. unfold sameContent.
    intros (-> & -> & -> & ->). done.
  - intros a d name namespace owners immutable. apply Hbool.
    rewrite !configMapsEqual_spec. done.
Qed.

(** Against a store without chunks and with nothing listed, a [Create]
    fails as soon as a key of [desired] is taken. *)
Lemma ensureDesired_fresh_clash desired (store : gmap NamespacedName ConfigMap) :
  (∃ d, d ∈ desired ∧ is_Some (store !! keyOf d)) ∨ ¬ NoDup (keyOf <$> desired) →
  ∃ d store',
    d ∈ desired ∧
    ensureDesired (client := memoryStore) desired ∅ store
    = (inl (Errorf "create configmap: "
              (Some (StatusError "AlreadyExists"
                       ("configmaps " +:+ Name d +:+ " already exists")))), store').
Proof.
  revert store. induction desired as [|cm desired IH]; intros store Hclash.
  - destruct Hclash as [(d & Hd & _)|Hdup].
    + by apply elem_of_nil in Hd.
    + destruct Hdup. constructor.
  - simpl. rewrite lookup_empty. unfold mbind, M_bind, createConfigMap. simpl.
    destruct (store !! keyOf cm) as [x|] eqn:Hcm.
    + exists cm, store. split; [by left|done].
    + destruct (IH (<[keyOf cm := cm]> store)) as (d & store' & Hd & Hrun).
      * destruct Hclash as [(d & [->|Hd]%elem_of_cons & Hs)|Hdup].
        -- rewrite Hcm in Hs. by destruct Hs.
        -- left. exists d. split; [done|].
           rewrite lookup_insert. case_decide; [by eexists|done].
        -- rewrite fmap_cons, NoDup_cons in Hdup.
           destruct (decide (keyOf cm ∈ keyOf <$> desired)) as [Hin|Hnin].
           ++ apply list_elem_of_fmap in Hin as (d & Heq & Hd).
              left. exists d. split; [done|].
              rewrite <- Heq, lookup_insert_eq. by eexists.
           ++ right. intros Hnd. by apply Hdup.
      * exists d, store'. split; [by right|done].
Qed.

(** X6 (lines 237-269). The first unpack, against a store without chunks: the
    run returns without error exactly when the desired chunks have distinct
    keys. It then leaves every desired chunk in the store and nothing else;
    with a key that occurs twice it returns the "already exists" of a
    [Create]. *)
Theorem first_run_succeeds_iff_distinct_keys (desired : list ConfigMap) :
  let run := ensureDesiredConfigMaps (client := memoryStore) [] desired ∅ in
  (run.1 = inr tt ↔ NoDup (keyOf <$> desired)) ∧
  (NoDup (keyOf <$> desired) →
   (∀ d, d ∈ desired → run.2 !! keyOf d = Some d) ∧
   (∀ k, k ∉ keyOf <$> desired → run.2 !! k = None)) ∧
  (¬ NoDup (keyOf <$> desired) →
   ∃ d, d ∈ desired ∧
        run.1 = inl (Errorf "create configmap: "
                       (Some (StatusError "AlreadyExists"
                                ("configmaps " +:+ Name d +:+ " already exists"))))).
Proof.
  intros run.
  assert (NoDup (keyOf <$> desired) →
          run.1 = inr tt ∧
          (∀ d, d ∈ desired → run.2 !! keyOf d = Some d) ∧
          (∀ k, k ∉ keyOf <$> desired → run.2 !! k = None)) as Hgood.
  { intros Hnd. destruct (memoryStore_run [] desired Hnd)
      as (store' & Hrun & Hin & Hout).
    change (indexActual []) with (∅ : gmap NamespacedName ConfigMap) in Hrun, Hin.
    fold run in Hrun. rewrite Hrun. simpl. split; [done|]. split; [|done].
    intros d Hd. rewrite (Hin d Hd). by rewrite lookup_empty. }
  assert (¬ NoDup (keyOf <$> desired) →
          ∃ d, d ∈ desired ∧
               run.1 = inl (Errorf "create configmap: "
                              (Some (StatusError "AlreadyExists"
                                       ("configmaps " +:+ Name d +:+ " already exists")))))
    as Hbad.
  { intros Hdup.
    destruct (ensureDesired_fresh_clash desired ∅ (or_intror Hdup))
      as (d & store' & Hd & Hrun).
    exists d. split; [done|]. unfold run, ensureDesiredConfigMaps, mbind, M_bind.
    change (indexActual []) with (∅ : gmap NamespacedName ConfigMap).
    by rewrite Hrun. }
  split; [|split; [|done]].
  - split; [|by intros [? _]%Hgood].
    intros Hok. destruct (decide (NoDup (keyOf <$> desired))) as [|Hdup]; [done|].
    apply Hbad in Hdup as (d & _ & Hrun). congruence.
  - by intros [_ ?]%Hgood.
Qed.

(** X7 (lines 237-269). Every call of a run stays within its inputs: a chunk
    it creates is one of the desired chunks, and a chunk it deletes is the
    actual chunk listed under that key. *)
Theorem calls_stay_within_inputs {St} (c : Client St) (s : St)
    (actual desired : list ConfigMap) (call : Call) :
  let run := ensureDesiredConfigMaps (client := recording c) actual desired (s, []) in
  call ∈ calls run →
  match callOp call with
  | OpCreate cm => cm ∈ desired
  | OpDelete ecm => ecm ∈ actual ∧ indexActual actual !! keyOf ecm = Some ecm
  end.
Proof.
  intros run. unfold calls.
  destruct (Issues_ensureDesiredConfigMaps c actual desired (s, []))
    as (new & Hlog & Hrec%Recorded_prefix & _).
  fold run in Hlog. simpl in Hlog. rewrite Hlog. intros Hcall.
  assert (callOp call ∈ plan actual desired) as Hplan.
  { destruct Hrec as [rest ->]. apply elem_of_app. left.
    by apply list_elem_of_fmap_2. }
  unfold plan in Hplan. apply elem_of_app in Hplan as [Hloop|Hsweep].
  - destruct (callOp call) as [cm|ecm].
    + by eapply plannedOps_create.
    + apply plannedOps_delete in Hloop as (d & _ & Hlk).
      pose proof (indexActual_lookup _ _ _ Hlk) as [Hin Hk].
      split; [done|]. by rewrite Hk.
  - unfold sweepOps in Hsweep.
    apply list_elem_of_fmap in Hsweep as ([k ecm] & -> & Hin). simpl.
    apply range_elem_of, remainingAfter_lookup_Some in Hin.
    pose proof (indexActual_lookup _ _ _ Hin) as [Hin' Hk].
    split; [done|]. by rewrite Hk.
Qed.



End MapRange.

(** ** The loader *)

Section LoaderProperties.

Context {O : Type}.
Variable YAMLOrJSONDecoder : list byte → list O * error.
Variable Manifests : FS.

Local Ltac unfold_documentsOf := unfold documentsOf.

Local Abbreviation readEntries := (readEntries YAMLOrJSONDecoder Manifests).
Local Abbreviation documentsOf := (documentsOf YAMLOrJSONDecoder Manifests).
Local Abbreviation entryLoads := (entryLoads YAMLOrJSONDecoder Manifests).
Local Abbreviation entryMalformed := (entryMalformed YAMLOrJSONDecoder Manifests).

Lemma decodeFile_spec (docs : list O) err objects :
  decodeFile docs err objects
  = if errors_Is_EOF err then inr (objects ++ docs) else inl err.
Proof.
  revert objects. induction docs as [|obj docs IH]; intros objects; simpl.
  - by rewrite app_nil_r.
  - rewrite IH. by rewrite <- app_assoc.
Qed.

Lemma readEntries_loads pre rest objects :
  Forall entryLoads pre →
  readEntries (pre ++ rest) objects
  = readEntries rest (objects ++ concat (documentsOf <$> pre)).
Proof.
  intros Hpre. revert objects.
  induction Hpre as [|e pre He Hpre IH]; intros objects; simpl.
  - by rewrite app_nil_r.
  - unfold_documentsOf.
    destruct He as [Hdir|(fileData & Hread & Heof)].
    + rewrite Hdir. apply IH.
    + destruct (IsDir e); [apply IH|]. rewrite Hread.
      destruct (YAMLOrJSONDecoder fileData) as [docs derr] eqn:Hdec. simpl in *.
      rewrite decodeFile_spec, Heof, IH. by rewrite <- app_assoc.
Qed.

Lemma readEntries_malformed e err rest objects :
  entryMalformed e err → readEntries (e :: rest) objects = ([], Some err).
Proof.
  intros (Hfile & fileData & Hread & Herr & Hne). simpl.
  rewrite Hfile, Hread.
  destruct (YAMLOrJSONDecoder fileData) as [docs derr]. simpl in *. subst derr.
  by rewrite decodeFile_spec, Hne.
Qed.

End LoaderProperties.

(** C7 (loader), as the code has it.  At the first file with a malformed
    document the loader returns the error of the decoder, unchanged, and no
    objects; the decoder is given the bytes of the file and not its name.
    When every file decodes up to its end, the loader returns the documents
    of the entries that are not directories, entry after entry and in the
    order of the documents of each file. *)
Theorem getObjects_returns_decoder_error_or_all {O : Type}
    (YAMLOrJSONDecoder : list byte → list O * error) (Manifests : FS)
    (dirEntries : list DirEntry) :
  ReadDir Manifests = inr dirEntries →
  (∀ pre e post err,
     dirEntries = pre ++ e :: post →
     Forall (entryLoads YAMLOrJSONDecoder Manifests) pre →
     entryMalformed YAMLOrJSONDecoder Manifests e err →
     getObjects YAMLOrJSONDecoder Manifests = ([], Some err)) ∧
  (Forall (entryLoads YAMLOrJSONDecoder Manifests) dirEntries →
   getObjects YAMLOrJSONDecoder Manifests
   = (concat (documentsOf YAMLOrJSONDecoder Manifests <$> dirEntries), None)).
Proof.
  intros Hdir. unfold getObjects. rewrite Hdir. split.
  - intros pre e post err -> Hpre Hbad.
    rewrite readEntries_loads by done. by apply readEntries_malformed.
  - intros Hall.
    rewrite <- (app_nil_r dirEntries) at 1.
    by rewrite readEntries_loads.
Qed.

(** *** Further properties of the loader *)

Section LoaderErrors.

Context {O : Type}.
Variable YAMLOrJSONDecoder : list byte → list O * error.
Variable Manifests : FS.

Lemma readEntries_error dirEntries (acc objects : list O) err :
  readEntries YAMLOrJSONDecoder Manifests dirEntries acc = (objects, Some err) →
  objects = [].
Proof.
  revert acc. induction dirEntries as [|e dirEntries IH]; intros acc; simpl; [done|].
  destruct (IsDir e); [apply IH|].
  destruct (ReadFile Manifests (entryName e)) as [rerr|fileData]; [by intros [= <- _]|].
  destruct (YAMLOrJSONDecoder fileData) as [docs derr].
  destruct (decodeFile docs derr acc) as [e'|objects']; [by intros [= <- _]|apply IH].
Qed.

(** X11 (lines 158-186). Whatever fails, reading the directory, reading a file
    or decoding a document: the loader returns no objects together with an
    error. *)
Theorem getObjects_error_returns_no_objects (objects : list O) err :
  getObjects YAMLOrJSONDecoder Manifests = (objects, Some err) → objects = [].
Proof.
  unfold getObjects. destruct (ReadDir Manifests) as [rerr|dirEntries].
  - by intros [= <- _].
  - apply readEntries_error.
Qed.

(** X12 (lines 161-172). Read errors. When the directory cannot be read the
    loader returns "read manifests: " followed by the text of the error. When
    a file cannot be read, and every entry before it loads, the loader returns
    the error of [fs.ReadFile] as it is. *)
Theorem getObjects_read_errors :
  (∀ err, ReadDir Manifests = inl err →
     getObjects YAMLOrJSONDecoder Manifests
     = ([], Some (errorString ("read manifests: " +:+ Error err)))) ∧
  (∀ pre e post err,
     ReadDir Manifests = inr (pre ++ e :: post) →
     Forall (entryLoads YAMLOrJSONDecoder Manifests) pre →
     IsDir e = false → ReadFile Manifests (entryName e) = inl err →
     getObjects YAMLOrJSONDecoder Manifests = ([], Some err)).
Proof.
  split.
  - intros err Hdir. unfold getObjects. by rewrite Hdir.
  - intros pre e post err Hdir Hpre Hfile Hread. unfold getObjects. rewrite Hdir.
    rewrite readEntries_loads by done. simpl. by rewrite Hfile, Hread.
Qed.

Lemma readEntries_skips_directories dirEntries (acc : list O) :
  readEntries YAMLOrJSONDecoder Manifests dirEntries acc
  = readEntries YAMLOrJSONDecoder Manifests
      (List.filter (fun e => negb (IsDir e)) dirEntries) acc.
Proof.
  revert acc. induction dirEntries as [|e dirEntries IH]; intros acc; simpl; [done|].
  destruct (IsDir e) eqn:Hdir; simpl; [apply IH|]. rewrite Hdir.
  destruct (ReadFile Manifests (entryName e)) as [rerr|fileData]; [done|].
  destruct (YAMLOrJSONDecoder fileData) as [docs derr].
  by destruct (decodeFile docs derr acc).
Qed.

(** X13 (lines 165-168). Directories of the manifest source are skipped: the
    loader returns what it returns for the same source without them, and it
    does not read a file under the name of a directory. *)
Theorem getObjects_skips_directories (dirEntries : list DirEntry)
    (ReadFile' : string → error + list byte) :
  ReadDir Manifests = inr dirEntries →
  (∀ e, e ∈ dirEntries → IsDir e = false →
        ReadFile' (entryName e) = ReadFile Manifests (entryName e)) →
  getObjects YAMLOrJSONDecoder Manifests
  = getObjects YAMLOrJSONDecoder
      (mkFS (inr (List.filter (fun e => negb (IsDir e)) dirEntries)) ReadFile').
Proof.
  intros Hdir Hsame. unfold getObjects. rewrite Hdir. simpl.
  rewrite readEntries_skips_directories.
  assert (∀ e, e ∈ List.filter (fun e => negb (IsDir e)) dirEntries →
               ReadFile' (entryName e) = ReadFile Manifests (entryName e)) as Hfiles.
  { intros e [Hin Hfile]%list_elem_of_In%filter_In.
    apply Hsame; [by apply list_elem_of_In|by destruct (IsDir e)]. }
  revert Hfiles. generalize (List.filter (fun e => negb (IsDir e)) dirEntries).
  generalize ([] : list O).
  intros acc files. revert acc.
  induction files as [|e files IH]; intros acc Hfiles; simpl; [done|].
  destruct (IsDir e); [apply IH; intros e' He'; apply Hfiles; by right|].
  rewrite (Hfiles e) by (by left).
  destruct (ReadFile Manifests (entryName e)) as [rerr|fileData]; [done|].
  destruct (YAMLOrJSONDecoder fileData) as [docs derr].
  destruct (decodeFile docs derr acc); [done|].
  apply IH. intros e' He'. apply Hfiles. by right.
Qed.

End LoaderErrors.

(** ** The desired-state builder *)

Lemma hex_length (b : list byte) : String.length (hex b) = 2 * length b.
Proof. induction b as [|x b IH]; simpl; [done|]. rewrite IH. lia. Qed.

Lemma Sum256_length (data : list byte) : length (Sha256.Sum256 data) = 32.
Proof. reflexivity. Qed.

Lemma substring_length (n : nat) (s : string) :
  n ≤ String.length s → String.length (substring 0 n s) = n.
Proof.
  revert s. induction n as [|n IH]; intros s Hn.
  - by destruct s.
  - destruct s as [|a s]; simpl in *; [lia|]. rewrite IH; [done|lia].
Qed.

Section BuilderProperties.

Context {O : Type} `{!ClientObject O}.
Variable yaml_Marshal : O → error + list byte.
Variable gzip_Write : list byte → option error.
Variable gzip_Close : list byte → error + list byte.
Variable controllerRef : Bundle.t → ConfigMap → error + OwnerReference.
Variable u : Unpacker.t.
Variable bundle : Bundle.t.
Variable resolvedImage : string.

Local Ltac unfold_desiredConfigMap := unfold desiredConfigMap, SetControllerReference.

Local Abbreviation desiredConfigMap :=
  (desiredConfigMap yaml_Marshal gzip_Write gzip_Close controllerRef u bundle resolvedImage).
Local Abbreviation appendDesired :=
  (appendDesired yaml_Marshal gzip_Write gzip_Close controllerRef u bundle resolvedImage).
Local Abbreviation getDesiredConfigMaps :=
  (getDesiredConfigMaps yaml_Marshal gzip_Write gzip_Close controllerRef u bundle resolvedImage).

(** The chunk of an object whose canonical bytes are [objData] and whose
    compressed bytes are [objCompressed], before the owner reference. *)
Definition chunkShape (obj : O) (objData objCompressed : list byte) (cm : ConfigMap) : Prop :=
  Name cm = "bundle-object-" +:+ Unpacker.BundleName u +:+ "-"
            +:+ substring 0 8 (hex (Sha256.Sum256 objData)) ∧
  Namespace cm = Unpacker.Namespace u ∧
  entries (Labels cm) = {[ "kuberpak.io/bundle-name" := Unpacker.BundleName u ]} ∧
  entries (Data cm) = list_to_map [
    ("bundle-image", resolvedImage);
    ("object-sha256", hex (Sha256.Sum256 objData));
    ("object-kind", (ToAPIVersionAndKind obj).1);
    ("object-apiversion", (ToAPIVersionAndKind obj).2);
    ("object-name", GetName obj);
    ("object-namespace", GetNamespace obj) ] ∧
  entries (BinaryData cm) = {[ "object" := objCompressed ]} ∧
  Immutable cm = Some true.

Lemma desiredConfigMap_inr obj cm :
  desiredConfigMap obj = inr cm →
  ∃ objData objCompressed,
    yaml_Marshal obj = inr objData ∧ gzip_Write objData = None ∧
    gzip_Close objData = inr objCompressed ∧
    chunkShape obj objData objCompressed cm.
Proof.
  unfold_desiredConfigMap.
  destruct (yaml_Marshal obj) as [e|objData] eqn:Hyaml; [discriminate|].
  destruct (gzip_Write objData) as [e|] eqn:Hwrite; [discriminate|].
  destruct (gzip_Close objData) as [e|objCompressed] eqn:Hclose; [discriminate|].
  destruct (ToAPIVersionAndKind obj) as [kind apiVersion] eqn:Hgvk.
  destruct (controllerRef _ _) as [e|ref]; [discriminate|].
  intros Hcm. apply (inj inr) in Hcm. subst cm.
  exists objData, objCompressed.
  split; [reflexivity|]. split; [assumption|]. split; [assumption|].
  unfold chunkShape. rewrite Hgvk. repeat (split; [reflexivity|]). reflexivity.
Qed.

Lemma appendDesired_None objects acc cms :
  appendDesired objects acc = (cms, None) →
  ∃ new, cms = acc ++ new ∧
         Forall2 (fun obj cm => desiredConfigMap obj = inr cm) objects new.
Proof.
  revert acc. induction objects as [|obj objects IH]; intros acc; simpl.
  - intros [= <-]. exists []. by rewrite app_nil_r.
  - destruct (desiredConfigMap obj) as [e|cm] eqn:Hcm; [done|].
    intros (new & -> & Hall)%IH. exists (cm :: new).
    rewrite <- app_assoc. split; [done|]. by constructor.
Qed.

Lemma appendDesired_total objects acc :
  (∀ obj, obj ∈ objects → ∃ cm, desiredConfigMap obj = inr cm) →
  ∃ cms, appendDesired objects acc = (cms, None).
Proof.
  revert acc. induction objects as [|obj objects IH]; intros acc Hall; simpl.
  - by eexists.
  - destruct (Hall obj) as [cm ->]; [by left|].
    apply IH. intros obj' Hin. apply Hall. by right.
Qed.

(** The chunks of a successful build, object by object. *)
Lemma getDesiredConfigMaps_None objects cms :
  getDesiredConfigMaps objects = (cms, None) →
  Forall2 (fun obj cm => desiredConfigMap obj = inr cm) objects cms.
Proof. by intros (new & -> & Hall)%appendDesired_None. Qed.

(** The hash a chunk records is the SHA-256 of the bytes [yaml.Marshal]
    returned for its object, whatever the unpacker, the bundle, the resolved
    image and the other objects are. *)
Lemma content_hash_is_of_the_encoding obj cm objData :
  desiredConfigMap obj = inr cm → yaml_Marshal obj = inr objData →
  index (Data cm) "object-sha256" = Some (hex (Sha256.Sum256 objData)).
Proof.
  intros (objData' & objCompressed & Hyaml & _ & _ & Hshape)%desiredConfigMap_inr Hobj.
  rewrite Hyaml in Hobj. apply (inj inr) in Hobj. subst objData'.
  destruct Hshape as (_ & _ & _ & Hdata & _).
  unfold index. rewrite Hdata. rewrite list_to_map_cons.
  rewrite lookup_insert_ne by discriminate.
  rewrite list_to_map_cons. apply lookup_insert_eq.
Qed.

(** C6 (shape of the desired chunks).  A build that returns without error
    returns one chunk for each object, in the order of the objects.  The
    chunk of an object is named "bundle-object-", the bundle name of the
    unpacker, "-" and the first 8 of the 64 hexadecimal digits of the SHA-256
    of its [yaml.Marshal] bytes; it lies in the namespace of the unpacker,
    is labelled "kuberpak.io/bundle-name" with the bundle name, is immutable,
    has the six textual fields and has the bytes of the gzip writer under
    "object".  The field "object-kind" holds the first result of
    [ToAPIVersionAndKind] and "object-apiversion" the second, as line 209
    binds them.  The build returns without error when the encoding of every
    object does. *)
Theorem desired_chunks_have_the_wire_shape (objects : list O) :
  (∀ cms, getDesiredConfigMaps objects = (cms, None) →
     length cms = length objects ∧
     ∀ i obj, objects !! i = Some obj →
       ∃ cm objData objCompressed,
         cms !! i = Some cm ∧
         yaml_Marshal obj = inr objData ∧
         gzip_Close objData = inr objCompressed ∧
         chunkShape obj objData objCompressed cm ∧
         String.length (substring 0 8 (hex (Sha256.Sum256 objData))) = 8 ∧
         size (entries (Data cm)) = 6) ∧
  ((∀ obj, obj ∈ objects → ∃ cm, desiredConfigMap obj = inr cm) →
   ∃ cms, getDesiredConfigMaps objects = (cms, None)).
Proof.
  split; [|apply appendDesired_total].
  intros cms Hall%getDesiredConfigMaps_None. split.
  - symmetry. by eapply Forall2_length.
  - intros i obj Hi.
    destruct (Forall2_lookup_l _ _ _ _ _ Hall Hi) as (cm & Hcm & Hbuilt).
    apply desiredConfigMap_inr in Hbuilt
      as (objData & objCompressed & Hyaml & _ & Hgz & Hshape).
    exists cm, objData, objCompressed.
    split; [done|]. split; [done|]. split; [done|]. split; [done|]. split.
    + apply substring_length. rewrite hex_length, Sum256_length. lia.
    + destruct Hshape as (_ & _ & _ & -> & _). vm_compute. reflexivity.
Qed.

(** C5 (naming collisions), as the code has it.  The builder compares no
    names.  When the encoding of every object returns without error, so does
    the build, with one chunk for each object; and two objects whose hashes
    agree on the first 8 hexadecimal digits have chunks under the same
    (namespace, name) key in the list it returns. *)
Theorem colliding_objects_share_a_key (objects : list O) :
  (∀ obj, obj ∈ objects → ∃ cm, desiredConfigMap obj = inr cm) →
  ∃ cms, getDesiredConfigMaps objects = (cms, None) ∧
    length cms = length objects ∧
    ∀ i j obj_i obj_j data_i data_j,
      objects !! i = Some obj_i → objects !! j = Some obj_j →
      yaml_Marshal obj_i = inr data_i → yaml_Marshal obj_j = inr data_j →
      hashPrefix (hex (Sha256.Sum256 data_i)) = hashPrefix (hex (Sha256.Sum256 data_j)) →
      ∃ cm_i cm_j, cms !! i = Some cm_i ∧ cms !! j = Some cm_j ∧
                   keyOf cm_i = keyOf cm_j.
Proof.
  intros Htotal.
  destruct (appendDesired_total objects [] Htotal) as [cms Hcms].
  exists cms. split; [done|].
  apply getDesiredConfigMaps_None in Hcms as Hall. split.
  - symmetry. by eapply Forall2_length.
  - intros i j obj_i obj_j data_i data_j Hi Hj Hyi Hyj Hpfx.
    destruct (Forall2_lookup_l _ _ _ _ _ Hall Hi) as (cm_i & Hcmi & Hbi).
    destruct (Forall2_lookup_l _ _ _ _ _ Hall Hj) as (cm_j & Hcmj & Hbj).
    exists cm_i, cm_j. split; [done|]. split; [done|].
    apply desiredConfigMap_inr in Hbi as (di & ci & Hyi' & _ & _ & Hni & Hnsi & _).
    apply desiredConfigMap_inr in Hbj as (dj & cj & Hyj' & _ & _ & Hnj & Hnsj & _).
    rewrite Hyi in Hyi'. rewrite Hyj in Hyj'.
    injection Hyi' as <-. injection Hyj' as <-.
    unfold keyOf, hashPrefix in *. by rewrite Hni, Hnj, Hnsi, Hnsj, Hpfx.
Qed.

End BuilderProperties.

(** *** Further properties of the builder *)

Lemma append_length (s1 s2 : string) :
  String.length (s1 +:+ s2) = String.length s1 + String.length s2.
Proof. induction s1 as [|a s1 IH]; simpl; [done|]. by rewrite IH. Qed.

Section BuilderFurther.

Context {O : Type} `{!ClientObject O}.
Variable yaml_Marshal : O → error + list byte.
Variable gzip_Write : list byte → option error.
Variable gzip_Close : list byte → error + list byte.
Variable controllerRef : Bundle.t → ConfigMap → error + OwnerReference.
Variable u : Unpacker.t.
Variable bundle : Bundle.t.

Local Ltac unfold_chunk := unfold desiredConfigMap, SetControllerReference.

Local Abbreviation chunkOf :=
  (desiredConfigMap yaml_Marshal gzip_Write gzip_Close controllerRef u bundle).
Local Abbreviation appendChunks :=
  (appendDesired yaml_Marshal gzip_Write gzip_Close controllerRef u bundle).
Local Abbreviation build :=
  (getDesiredConfigMaps yaml_Marshal gzip_Write gzip_Close controllerRef u bundle).

Lemma appendDesired_error image objects acc cms err :
  appendChunks image objects acc = (cms, Some err) → cms = [].
Proof.
  revert acc. induction objects as [|obj objects IH]; intros acc; simpl; [done|].
  destruct (chunkOf image obj) as [e|cm]; [by intros [= <- _]|apply IH].
Qed.

Lemma appendDesired_fails_at image pre obj post acc err :
  (∀ o, o ∈ pre → ∃ cm, chunkOf image o = inr cm) →
  chunkOf image obj = inl err →
  appendChunks image (pre ++ obj :: post) acc = ([], Some err).
Proof.
  revert acc. induction pre as [|o pre IH]; intros acc Hpre Hobj; simpl.
  - by rewrite Hobj.
  - destruct (Hpre o) as [cm ->]; [by left|].
    apply IH; [|done]. intros o' Ho'. apply Hpre. by right.
Qed.

(** X14 (lines 192-235). The builder stops at the first object whose chunk
    cannot be built and returns the error of that object; whenever it returns
    an error it returns no chunks, also not those of the objects before. *)
Theorem getDesiredConfigMaps_fails_at_first_error image :
  (∀ pre obj post err,
     (∀ o, o ∈ pre → ∃ cm, chunkOf image o = inr cm) →
     chunkOf image obj = inl err →
     build image (pre ++ obj :: post) = ([], Some err)) ∧
  (∀ objects cms err, build image objects = (cms, Some err) → cms = []).
Proof.
  split.
  - intros pre obj post err. apply appendDesired_fails_at.
  - intros objects cms err. apply appendDesired_error.
Qed.

(** X15 (lines 195-231). Where the error of one object comes from:
    [yaml.Marshal], whose error is returned as it is, or the gzip writer on
    [Write] or on [Close], or the owner reference, whose errors are returned
    under the prefixes of lines 203, 206 and 230. *)
Theorem desiredConfigMap_error_origin image obj err :
  chunkOf image obj = inl err →
  yaml_Marshal obj = inl err ∨
  ∃ objData, yaml_Marshal obj = inr objData ∧
    ((∃ e, gzip_Write objData = Some e ∧
           err = errorString ("gzip object data: " +:+ Error e)) ∨
     (∃ e, gzip_Write objData = None ∧ gzip_Close objData = inl e ∧
           err = errorString ("close gzip writer: " +:+ Error e)) ∨
     (∃ objCompressed cm e,
        gzip_Write objData = None ∧ gzip_Close objData = inr objCompressed ∧
        controllerRef bundle cm = inl e ∧
        Name cm = "bundle-object-" +:+ Unpacker.BundleName u +:+ "-"
                  +:+ substring 0 8 (hex (Sha256.Sum256 objData)) ∧
        err = errorString ("set owner reference on configmap: " +:+ Error e))).
Proof.
  unfold_chunk.
  destruct (yaml_Marshal obj) as [e|objData] eqn:Hyaml.
  { intros Herr. apply (inj inl) in Herr. subst. by left. }
  intros Herr. right. exists objData. split; [reflexivity|]. revert Herr.
  destruct (gzip_Write objData) as [e|] eqn:Hwrite.
  { intros Herr. apply (inj inl) in Herr. subst. left. by exists e. }
  destruct (gzip_Close objData) as [e|objCompressed] eqn:Hclose.
  { intros Herr. apply (inj inl) in Herr. subst. right. left. by exists e. }
  destruct (ToAPIVersionAndKind obj) as [kind apiVersion].
  match goal with
  | |- context [controllerRef bundle ?cm0] =>
      destruct (controllerRef bundle cm0) as [e|ref] eqn:Href;
      [intros Herr; apply (inj inl) in Herr; subst;
       right; right; exists objCompressed, cm0, e;
       repeat (split; [reflexivity || assumption|]); reflexivity
      |discriminate]
  end.
Qed.

Lemma appendDesired_acc image objects acc :
  appendChunks image objects acc
  = match appendChunks image objects [] with
    | (cms, None) => (acc ++ cms, None)
    | (_, Some err) => ([], Some err)
    end.
Proof.
  revert acc. induction objects as [|obj objects IH]; intros acc; simpl.
  - by rewrite app_nil_r.
  - destruct (chunkOf image obj) as [e|cm]; [done|].
    rewrite (IH (acc ++ [cm])), (IH [cm]).
    destruct (appendChunks image objects []) as [cms [err|]]; [done|].
    by rewrite <- app_assoc.
Qed.

Lemma appendDesired_app image objects1 objects2 acc :
  appendChunks image (objects1 ++ objects2) acc
  = match appendChunks image objects1 acc with
    | (cms, None) => appendChunks image objects2 cms
    | (_, Some err) => ([], Some err)
    end.
Proof.
  revert acc. induction objects1 as [|obj objects1 IH]; intros acc; simpl; [done|].
  destruct (chunkOf image obj) as [e|cm]; [done|apply IH].
Qed.

(** X16 (lines 192-235). The chunks of two sequences of objects, one after the
    other, are the chunks of the first followed by the chunks of the second;
    the error is that of the first sequence if it has one, else that of the
    second. *)
Theorem getDesiredConfigMaps_app image (objects1 objects2 : list O) :
  build image (objects1 ++ objects2)
  = match build image objects1, build image objects2 with
    | (cms1, None), (cms2, None) => (cms1 ++ cms2, None)
    | (_, Some err), _ => ([], Some err)
    | (_, None), (_, Some err) => ([], Some err)
    end.
Proof.
  unfold getDesiredConfigMaps. rewrite appendDesired_app.
  destruct (appendChunks image objects1 []) as [cms1 [err|]]; [done|].
  rewrite appendDesired_acc.
  by destruct (appendChunks image objects2 []) as [cms2 [err|]].
Qed.

Lemma chunkShape_image_lookup image obj objData objCompressed cm :
  chunkShape u image obj objData objCompressed cm →
  entries (Data cm) !! "bundle-image" = Some image.
Proof.
  intros (_ & _ & _ & -> & _). rewrite list_to_map_cons. apply lookup_insert_eq.
Qed.

(** X17 (lines 210-228). The chunks of the same objects for two resolved
    images have the same (namespace, name) keys, one by one; when the images
    differ, no chunk of the one has the content of its counterpart, since the
    field "bundle-image" differs. *)
Theorem chunks_of_two_images image image' (objects : list O)
    (cms cms' : list ConfigMap) :
  build image objects = (cms, None) → build image' objects = (cms', None) →
  keyOf <$> cms = keyOf <$> cms' ∧
  (image ≠ image' → Forall2 (fun a d => ¬ sameContent a d) cms cms').
Proof.
  intros Hcms%getDesiredConfigMaps_None Hcms'%getDesiredConfigMaps_None.
  revert cms' Hcms'.
  induction Hcms as [|obj cm objects cms Hcm Hcms IH]; intros cms' Hcms'.
  - apply Forall2_nil_inv_l in Hcms' as ->. split; [done|]. constructor.
  - apply Forall2_cons_inv_l in Hcms' as (cm' & cms'' & Hcm' & Hcms' & ->).
    destruct (IH _ Hcms') as [Hkeys Hdiff].
    apply desiredConfigMap_inr in Hcm as (d1 & c1 & Hy1 & _ & _ & Hs1).
    apply desiredConfigMap_inr in Hcm' as (d2 & c2 & Hy2 & _ & _ & Hs2).
    rewrite Hy1 in Hy2. apply (inj inr) in Hy2. subst d2.
    split.
    + rewrite !fmap_cons, Hkeys. f_equal.
      destruct Hs1 as (Hn1 & Hns1 & _). destruct Hs2 as (Hn2 & Hns2 & _).
      unfold keyOf. by rewrite Hn1, Hn2, Hns1, Hns2.
    + intros Hne. constructor; [|by apply Hdiff].
      intros (_ & _ & Hdata & _). apply Hne.
      apply chunkShape_image_lookup in Hs1, Hs2.
      rewrite Hdata in Hs1. congruence.
Qed.

(** X18 (line 212). The name of a chunk is 23 characters longer than the
    bundle name of the unpacker. *)
Theorem chunk_name_length image (objects : list O) (cms : list ConfigMap) cm :
  build image objects = (cms, None) → cm ∈ cms →
  String.length (Name cm) = 23 + String.length (Unpacker.BundleName u).
Proof.
  intros Hcms%getDesiredConfigMaps_None Hcm.
  apply list_elem_of_lookup in Hcm as [i Hi].
  destruct (Forall2_lookup_r _ _ _ _ _ Hcms Hi) as (obj & _ & Hbuilt).
  apply desiredConfigMap_inr in Hbuilt as (objData & _ & _ & _ & _ & Hname & _).
  rewrite Hname, !append_length, substring_length.
  - simpl. lia.
  - rewrite hex_length, Sum256_length. lia.
Qed.

End BuilderFurther.

(** ** The two comparisons of maps *)

(** C10 (equality of maps).  Each of [stringMapsEqual] and [bytesMapsEqual]
    returns [true] exactly when the two maps have the same value under every
    key; a nil map and an empty map are equal for both; the result does not
    depend on the order in which [range] visits the entries; and each is an
    equivalence on maps. *)
Theorem maps_equal_iff_same_entries
    (range : ∀ K (EqK : EqDecision K) (CntK : Countable K) V, gmap K V → list (K * V)) :
  RangeOrder range →
  (∀ a b : GoMap string,
     stringMapsEqual range a b = true ↔ ∀ k, index a k = index b k) ∧
  (∀ a b : GoMap (list byte),
     bytesMapsEqual range a b = true ↔ ∀ k, index a k = index b k) ∧
  (stringMapsEqual range None (Some ∅) = true ∧
   stringMapsEqual range (Some ∅) None = true ∧
   bytesMapsEqual range None (Some ∅) = true ∧
   bytesMapsEqual range (Some ∅) None = true) ∧
  (∀ range', RangeOrder range' →
     ∀ a b, stringMapsEqual range' a b = stringMapsEqual range a b) ∧
  (∀ range', RangeOrder range' →
     ∀ a b, bytesMapsEqual range' a b = bytesMapsEqual range a b) ∧
  Equivalence (fun a b => stringMapsEqual range a b = true) ∧
  Equivalence (fun a b => bytesMapsEqual range a b = true).
Proof.
  intros Hrange.
  assert (∀ V (a b : GoMap V), entries a = entries b ↔ ∀ k, index a k = index b k)
    as Hentries.
  { intros V a b. unfold index. split; [by intros ->|apply map_eq]. }
  assert (∀ x y : bool, (x = true ↔ y = true) → x = y) as Hbool.
  { intros [] [] [H1 H2]; try done; [by rewrite H1|by rewrite H2]. }
  split; [|split; [|split; [|split; [|split; [|split]]]]].
  - intros a b. by rewrite stringMapsEqual_spec, Hentries.
  - intros a b. by rewrite bytesMapsEqual_spec, Hentries.
  - by rewrite !stringMapsEqual_spec, !bytesMapsEqual_spec.
  - intros range' Hrange' a b. apply Hbool. by rewrite !stringMapsEqual_spec.
  - intros range' Hrange' a b. apply Hbool. by rewrite !bytesMapsEqual_spec.
  - split.
    + intros a. by apply stringMapsEqual_spec.
    + intros a b. rewrite !stringMapsEqual_spec by done. by intros ->.
    + intros a b c. rewrite !stringMapsEqual_spec by done. by intros -> ->.
  - split.
    + intros a. by apply bytesMapsEqual_spec.
    + intros a b. rewrite !bytesMapsEqual_spec by done. by intros ->.
    + intros a b c. rewrite !bytesMapsEqual_spec by done. by intros -> ->.
Qed.

(** ** The whole unpack *)

(** [corev1.ContainerStatus], with the two fields the unpacker reads. *)
Module ContainerStatus.
Record t : Type := mk {
  Image : string;
  ImageID : string;
}.
End ContainerStatus.

(** [corev1.Pod], with the two lists of [pod.Status] the unpacker reads. *)
Module Pod.
Record t : Type := mk {
  InitContainerStatuses : list ContainerStatus.t;
  ContainerStatuses : list ContainerStatus.t;
}.
End Pod.

(** [corev1.ObjectReference], with the fields lines 115-120 set. *)
Record ObjectReference : Type := mkObjectReference {
  refKind : string;
  refNamespace : string;
  refName : string;
  refAPIVersion : string;
}.

(** The reading methods of [client.Client] as [Run] calls them: [Get] of the
    bundle, [Get] of the pod, and [List] of the config maps with
    [client.MatchingLabels] and [client.InNamespace]. *)
Class Reader (S : Type) : Type := {
  clientGetBundle : NamespacedName → M S Bundle.t;
  clientGetPod : NamespacedName → M S Pod.t;
  clientListConfigMaps : GoMap string → string → M S (list ConfigMap);
}.

(** [return err]. *)
Definition throw {S A} (err : error) : M S A := fun s => (inl err, s).

(** The pair of a value and an error a Go function returned, followed by
    [if err != nil { return err }]. *)
Definition orReturn {S A} (result : A * option error) : M S A :=
  match result.2 with
  | Some err => throw err
  | None => mret result.1
  end.

(** A reader on the state of a recording client: it reads through and
    leaves the log alone. *)
Definition readingThrough {S} (r : Reader S) : Reader (S * list Call) := {|
  clientGetBundle key st :=
    let '(res, s') := @clientGetBundle S r key st.1 in (res, (s', st.2));
  clientGetPod key st :=
    let '(res, s') := @clientGetPod S r key st.1 in (res, (s', st.2));
  clientListConfigMaps labels namespace st :=
    let '(res, s') := @clientListConfigMaps S r labels namespace st.1 in
    (res, (s', st.2));
|}.

Section Run.

Context {S : Type} {reader : Reader S} {client : Client S}.
Context {O : Type} `{!ClientObject O}.

Variable range : forall K (EqK : EqDecision K) (CntK : Countable K) V,
  gmap K V -> list (K * V).

(** [strconv.Quote], which the verb [%q] applies to a string. *)
Variable strconv_Quote : string → string.

Variable YAMLOrJSONDecoder : list byte → list O * error.
Variable Manifests : FS.
Variable yaml_Marshal : O → error + list byte.
Variable gzip_Write : list byte → option error.
Variable gzip_Close : list byte → error + list byte.
Variable controllerRef : Bundle.t → ConfigMap → error + OwnerReference.
Variable u : Unpacker.t.

(** Whether a container status reports [image] with an image ID: the test of
    lines 146 and 151. *)
Definition reportsImage (image : string) (ps : ContainerStatus.t) : bool :=
  bool_decide (ContainerStatus.Image ps = image) &&
  negb (bool_decide (ContainerStatus.ImageID ps = EmptyString)).

(** Each of the loops of lines 145-149 and 150-154: the image ID of the
    first status that passes the test. *)
Fixpoint imageIDOf (image : string) (statuses : list ContainerStatus.t)
    : option string :=
  match statuses with
  | [] => None
  | ps :: statuses' =>
      if reportsImage image ps then Some (ContainerStatus.ImageID ps)
      else imageIDOf image statuses'
  end.

(** The Go function returns the empty string with every error. *)
Definition getImageDigest (image : string) : M S string :=
  pod ← clientGetPod (mkNamespacedName (Unpacker.Namespace u) (Unpacker.PodName u));
  match imageIDOf image (Pod.InitContainerStatuses pod) with
  | Some imageID => mret imageID
  | None =>
      match imageIDOf image (Pod.ContainerStatuses pod) with
      | Some imageID => mret imageID
      | None =>
          throw (errorString ("image digest for image " +:+ strconv_Quote image
                              +:+ " not found"))
      end
  end.

(** The body of the loop of lines 113-121. *)
Definition objectRefOf (obj : O) : ObjectReference :=
  let '(apiVersion, kind) := ToAPIVersionAndKind obj in
  {| refKind := kind; refNamespace := GetNamespace obj; refName := GetName obj;
     refAPIVersion := apiVersion |}.

Definition Run : M S unit :=
  bundle ← clientGetBundle
             (mkNamespacedName (Unpacker.Namespace u) (Unpacker.BundleName u));
  resolvedImage ← getImageDigest (Bundle.Image bundle);
  objects ← orReturn (getObjects YAMLOrJSONDecoder Manifests);
  let objectRefs := objectRefOf <$> objects in
  desiredConfigMaps ← orReturn
    (getDesiredConfigMaps yaml_Marshal gzip_Write gzip_Close controllerRef u
       bundle resolvedImage objects);
  actualConfigMaps ← clientListConfigMaps (getConfigMapLabels u) (Unpacker.Namespace u);
  ensureDesiredConfigMaps range actualConfigMaps desiredConfigMaps.

End Run.

(** *** Properties of the image digest and of the whole unpack *)

Section RunProperties.

Context {St : Type} {reader : Reader St} {client : Client St}.
Context {O : Type} `{!ClientObject O}.

Variable range : forall K (EqK : EqDecision K) (CntK : Countable K) V,
  gmap K V -> list (K * V).
Variable strconv_Quote : string → string.
Variable YAMLOrJSONDecoder : list byte → list O * error.
Variable Manifests : FS.
Variable yaml_Marshal : O → error + list byte.
Variable gzip_Write : list byte → option error.
Variable gzip_Close : list byte → error + list byte.
Variable controllerRef : Bundle.t → ConfigMap → error + OwnerReference.
Variable u : Unpacker.t.

Lemma imageIDOf_Some image statuses imageID :
  imageIDOf image statuses = Some imageID →
  ∃ before ps after,
    statuses = before ++ ps :: after ∧
    ContainerStatus.Image ps = image ∧
    ContainerStatus.ImageID ps = imageID ∧
    imageID ≠ EmptyString ∧
    Forall (fun q => reportsImage image q = false) before.
Proof.
  induction statuses as [|q statuses IH]; [discriminate|].
  cbn [imageIDOf]. destruct (reportsImage image q) eqn:Hq.
  - intros [= <-]. exists [], q, statuses.
    unfold reportsImage in Hq. apply andb_true_iff in Hq as [Himg Hid].
    apply bool_decide_eq_true in Himg.
    apply negb_true_iff in Hid. apply bool_decide_eq_false in Hid.
    repeat split; [assumption|assumption|constructor].
  - intros Hrest. destruct (IH Hrest) as (before & ps & after & -> & ? & ? & ? & ?).
    exists (q :: before), ps, after.
    repeat split; [assumption|assumption|assumption|by constructor].
Qed.

Lemma imageIDOf_None image statuses :
  imageIDOf image statuses = None ↔
  Forall (fun q => reportsImage image q = false) statuses.
Proof.
  induction statuses as [|q statuses IH].
  - split; [constructor|reflexivity].
  - cbn [imageIDOf]. destruct (reportsImage image q) eqn:Hq.
    + split; [discriminate|]. intros Hall. apply Forall_cons in Hall as [Hq' _].
      congruence.
    + rewrite IH. split; [by constructor|]. by intros [_ ?]%Forall_cons.
Qed.

Lemma imageIDOf_app image l1 l2 :
  imageIDOf image (l1 ++ l2) =
  match imageIDOf image l1 with
  | Some imageID => Some imageID
  | None => imageIDOf image l2
  end.
Proof.
  induction l1 as [|q l1 IH]; [reflexivity|].
  cbn [app imageIDOf]. by destruct (reportsImage image q).
Qed.

(** What [getImageDigest] returns in terms of the one loop over the init
    container statuses followed by the container statuses. *)
Lemma getImageDigest_unfold image s :
  getImageDigest strconv_Quote u image s =
  match clientGetPod
          (mkNamespacedName (Unpacker.Namespace u) (Unpacker.PodName u)) s with
  | (inl err, s') => (inl err, s')
  | (inr pod, s') =>
      match imageIDOf image
              (Pod.InitContainerStatuses pod ++ Pod.ContainerStatuses pod) with
      | Some imageID => (inr imageID, s')
      | None =>
          (inl (errorString ("image digest for image " +:+ strconv_Quote image
                             +:+ " not found")), s')
      end
  end.
Proof.
  unfold getImageDigest, mbind, M_bind.
  destruct (clientGetPod _ s) as [[err|pod] s']; [reflexivity|].
  rewrite imageIDOf_app.
  destruct (imageIDOf image (Pod.InitContainerStatuses pod)); [reflexivity|].
  by destruct (imageIDOf image (Pod.ContainerStatuses pod)).
Qed.

(** X19 (lines 139-156).  A digest [getImageDigest] returns is the
    non-empty image ID of a status of the unpack pod that reports the image,
    and no status before it, counting the init containers first and the
    containers after them, reports the image with an image ID. *)
Theorem image_digest_is_of_the_first_matching_status image s digest s' :
  getImageDigest strconv_Quote u image s = (inr digest, s') →
  digest ≠ EmptyString ∧
  ∃ pod before ps after,
    clientGetPod (mkNamespacedName (Unpacker.Namespace u) (Unpacker.PodName u)) s
      = (inr pod, s') ∧
    Pod.InitContainerStatuses pod ++ Pod.ContainerStatuses pod
      = before ++ ps :: after ∧
    ContainerStatus.Image ps = image ∧
    ContainerStatus.ImageID ps = digest ∧
    Forall (fun q => ContainerStatus.Image q ≠ image ∨
                     ContainerStatus.ImageID q = EmptyString) before.
Proof.
  rewrite getImageDigest_unfold.
  destruct (clientGetPod _ s) as [[err|pod] s1]; [discriminate|].
  destruct (imageIDOf image _) as [imageID|] eqn:Hid; [|discriminate].
  intros [= <- <-].
  destruct (imageIDOf_Some _ _ _ Hid) as (before & ps & after & Hsplit & Himg & Hps & Hne & Hbefore).
  split; [assumption|]. exists pod, before, ps, after.
  repeat split; try assumption.
  eapply Forall_impl; [exact Hbefore|]. intros q Hq. unfold reportsImage in Hq.
  apply andb_false_iff in Hq as [Hq|Hq].
  - left. by apply bool_decide_eq_false in Hq.
  - right. apply negb_false_iff in Hq. by apply bool_decide_eq_true in Hq.
Qed.

(** X20 (lines 139-156).  [getImageDigest] fails in exactly two ways: with
    the error of reading the unpack pod, returned as it is; or, when the pod
    is read and none of its statuses reports the image with an image ID, with
    the message "image digest for image <quoted image> not found".  A status
    that names the image with an empty image ID does not count. *)
Theorem image_digest_fails_in_two_ways image s err s' :
  getImageDigest strconv_Quote u image s = (inl err, s') ↔
  clientGetPod (mkNamespacedName (Unpacker.Namespace u) (Unpacker.PodName u)) s
    = (inl err, s') ∨
  ∃ pod,
    clientGetPod (mkNamespacedName (Unpacker.Namespace u) (Unpacker.PodName u)) s
      = (inr pod, s') ∧
    Forall (fun q => ContainerStatus.Image q ≠ image ∨
                     ContainerStatus.ImageID q = EmptyString)
      (Pod.InitContainerStatuses pod ++ Pod.ContainerStatuses pod) ∧
    err = errorString ("image digest for image " +:+ strconv_Quote image
                       +:+ " not found").
Proof.
  rewrite getImageDigest_unfold.
  destruct (clientGetPod _ s) as [[e|pod] s1].
  { split; [intros [= <- <-]; by left|].
    intros [[= <- <-]|(pod & [=] & _)]. reflexivity. }
  destruct (imageIDOf image _) as [imageID|] eqn:Hid.
  - split; [discriminate|]. intros [[=]|(pod' & [= <- <-] & Hall & _)].
    assert (imageIDOf image
              (Pod.InitContainerStatuses pod ++ Pod.ContainerStatuses pod) = None);
      [|congruence].
    apply imageIDOf_None. eapply Forall_impl; [exact Hall|].
    intros q [Hq|Hq]; unfold reportsImage.
    + by rewrite bool_decide_eq_false_2.
    + rewrite (bool_decide_eq_true_2 _ Hq). apply andb_false_r.
  - split.
    + intros [= <- <-]. right. exists pod. split; [reflexivity|]. split; [|reflexivity].
      apply imageIDOf_None in Hid. eapply Forall_impl; [exact Hid|].
      intros q Hq. unfold reportsImage in Hq.
      apply andb_false_iff in Hq as [Hq|Hq].
      * left. by apply bool_decide_eq_false in Hq.
      * right. apply negb_false_iff in Hq. by apply bool_decide_eq_true in Hq.
    + intros [[=]|(pod' & [= <- <-] & _ & ->)]. reflexivity.
Qed.

End RunProperties.

Section RunRecorded.

Context {St : Type} (reader : Reader St) (c : Client St).
Context {O : Type} `{!ClientObject O}.

Variable range : forall K (EqK : EqDecision K) (CntK : Countable K) V,
  gmap K V -> list (K * V).
Variable strconv_Quote : string → string.
Variable YAMLOrJSONDecoder : list byte → list O * error.
Variable Manifests : FS.
Variable yaml_Marshal : O → error + list byte.
Variable gzip_Write : list byte → option error.
Variable gzip_Close : list byte → error + list byte.
Variable controllerRef : Bundle.t → ConfigMap → error + OwnerReference.
Variable u : Unpacker.t.

(** [Run] with its reads passed through and its writes recorded. *)
Definition recordedRun (s : St) : (error + unit) * (St * list Call) :=
  @Run _ (readingThrough reader) (recording c) O _ range strconv_Quote
    YAMLOrJSONDecoder Manifests yaml_Marshal gzip_Write gzip_Close controllerRef
    u (s, []).

Lemma getImageDigest_readingThrough image s log :
  @getImageDigest _ (readingThrough reader) strconv_Quote u image (s, log) =
  let '(res, s') := @getImageDigest _ reader strconv_Quote u image s in
  (res, (s', log)).
Proof.
  unfold getImageDigest, mbind, M_bind. cbn [clientGetPod readingThrough fst snd].
  destruct (clientGetPod _ s) as [[err|pod] s']; [reflexivity|].
  destruct (imageIDOf image (Pod.InitContainerStatuses pod)); [reflexivity|].
  by destruct (imageIDOf image (Pod.ContainerStatuses pod)).
Qed.

(** X21 (lines 92-137).  [Run] creates or deletes a config map only after
    the bundle was read, the image digest was found, every manifest was
    loaded, every object was encoded and the config maps of the bundle were
    listed; when any of these steps fails, the cluster is not written to. *)
Theorem run_writes_only_after_every_step_succeeded s :
  calls (recordedRun s) ≠ [] →
  ∃ bundle s1 resolvedImage s2 objects desired actual s3,
    clientGetBundle
      (mkNamespacedName (Unpacker.Namespace u) (Unpacker.BundleName u)) s
      = (inr bundle, s1) ∧
    @getImageDigest _ reader strconv_Quote u (Bundle.Image bundle) s1
      = (inr resolvedImage, s2) ∧
    getObjects YAMLOrJSONDecoder Manifests = (objects, None) ∧
    getDesiredConfigMaps yaml_Marshal gzip_Write gzip_Close controllerRef u
      bundle resolvedImage objects = (desired, None) ∧
    clientListConfigMaps (getConfigMapLabels u) (Unpacker.Namespace u) s2
      = (inr actual, s3) ∧
    recordedRun s =
      @ensureDesiredConfigMaps range _ (recording c) actual desired (s3, []).
Proof.
  unfold recordedRun, Run, calls, mbind, M_bind.
  cbn [clientGetBundle clientListConfigMaps readingThrough fst snd].
  destruct (clientGetBundle _ s) as [[err|bundle] s1] eqn:Hbundle;
    [intros H; by destruct H|].
  rewrite getImageDigest_readingThrough.
  destruct (getImageDigest strconv_Quote u (Bundle.Image bundle) s1)
    as [[err|resolvedImage] s2] eqn:Hdigest; [intros H; by destruct H|].
  unfold orReturn.
  destruct (getObjects YAMLOrJSONDecoder Manifests) as [objects [err|]] eqn:Hobjects;
    [intros H; by destruct H|].
  cbn [fst snd mret M_ret throw].
  destruct (getDesiredConfigMaps yaml_Marshal gzip_Write gzip_Close
             controllerRef u bundle resolvedImage objects) as [desired [err|]] eqn:Hdesired;
    [intros H; by destruct H|].
  cbn [fst snd mret M_ret throw].
  destruct (clientListConfigMaps _ _ s2) as [[err|actual] s3] eqn:Hlist;
    [intros H; by destruct H|].
  intros _. by exists bundle, s1, resolvedImage, s2, objects, desired, actual, s3.
Qed.

End RunRecorded.

(** ** A bundle to run the unpacker on *)

(** Stand-ins for what lies outside the unpacker: a manifest object with
    four fields, an encoder that lays them out the way [yaml.v2] lays out an
    unstructured object, a gzip writer that only frames the bytes, the owner
    reference of the bundle, a decoder that knows two files, and a [range]
    that visits the entries of a map in the order of [map_to_list]. *)
Module Example.

Definition range (K : Type) (EqK : EqDecision K) (CntK : Countable K) (V : Type)
    (m : gmap K V) : list (K * V) := map_to_list m.

Lemma range_order : RangeOrder range.
Proof. by intros K EqK CntK V m. Qed.

Record Manifest : Type := mkManifest {
  mAPIVersion : string;
  mKind : string;
  mNamespace : string;
  mName : string;
}.

#[global] Instance Manifest_object : ClientObject Manifest := {|
  GetName := mName;
  GetNamespace := mNamespace;
  ToAPIVersionAndKind m := (mAPIVersion m, mKind m);
|}.

Definition nl : string := String "010" EmptyString.

Definition marshal (m : Manifest) : error + list byte :=
  inr (list_byte_of_string
         ("object:" +:+ nl +:+
          "  apiVersion: " +:+ mAPIVersion m +:+ nl +:+
          "  kind: " +:+ mKind m +:+ nl +:+
          "  metadata:" +:+ nl +:+
          "    name: " +:+ mName m +:+ nl +:+
          "    namespace: " +:+ mNamespace m +:+ nl)).

Definition gzipWrite (objData : list byte) : option error := None.

Definition gzipClose (objData : list byte) : error + list byte :=
  inr (x1f :: x8b :: objData).

Definition controllerRef (bundle : Bundle.t) (cm : ConfigMap) : error + OwnerReference :=
  inr (mkOwnerReference "olm.operatorframework.io/v1alpha1" "Bundle"
         (Bundle.Name bundle) (Bundle.UID bundle) true true).

Definition unpacker : Unpacker.t :=
  Unpacker.mk "olm" "unpack-mybundle" "kuberpak-example" "mybundle".

Definition bundle : Bundle.t :=
  Bundle.mk "mybundle" "olm" "0b5e4c6e" "quay.io/example/bundle:v1".

(** The desired chunks of [objects] for a resolved image. *)
Definition build (resolvedImage : string) (objects : list Manifest)
    : list ConfigMap * option error :=
  getDesiredConfigMaps marshal gzipWrite gzipClose controllerRef unpacker bundle
    resolvedImage objects.

Definition imageA : string := "quay.io/example/bundle@sha256:aaaa".
Definition imageB : string := "quay.io/example/bundle@sha256:bbbb".

Definition deployment : Manifest := mkManifest "apps/v1" "Deployment" "default" "web".
Definition service : Manifest := mkManifest "v1" "Service" "default" "web".

(** Two config maps whose encodings have SHA-256 digests that start with
    the same 8 hexadecimal digits. *)
Definition settings1 : Manifest := mkManifest "v1" "ConfigMap" "default" "settings-1995".
Definition settings2 : Manifest := mkManifest "v1" "ConfigMap" "default" "settings-24741".

(** The chunks of the deployment and the service, unpacked from the image
    [imageA] and, later, from the image [imageB]. *)
Definition chunksA : list ConfigMap := (build imageA [deployment; service]).1.
Definition chunksB : list ConfigMap := (build imageB [deployment; service]).1.

Definition emptyChunk : ConfigMap :=
  mkConfigMap EmptyString EmptyString None None [] None None None.

Definition serviceA : ConfigMap := default emptyChunk (chunksA !! 1).
Definition serviceB : ConfigMap := default emptyChunk (chunksB !! 1).

(** A manifest directory: a sub-directory, a file with two documents and a
    file whose second document is malformed. *)
Definition goodFile : list byte := list_byte_of_string "deployment, service".
Definition badFile : list byte := list_byte_of_string "service: web: 80".

Definition decoder (fileData : list byte) : list Manifest * error :=
  if bool_decide (fileData = goodFile) then ([deployment; service], io_EOF)
  else if bool_decide (fileData = badFile) then
    ([service],
     errorString ("error converting YAML to JSON: yaml: line 2: "
                  +:+ "mapping values are not allowed in this context"))
  else ([], io_EOF).

Definition manifests : FS := {|
  ReadDir := inr [mkDirEntry "charts" true;
                  mkDirEntry "deployment.yaml" false;
                  mkDirEntry "service.yaml" false];
  ReadFile name :=
    if bool_decide (name = "deployment.yaml") then inr goodFile
    else if bool_decide (name = "service.yaml") then inr badFile
    else inl (errorString ("open " +:+ name +:+ ": file does not exist"));
|}.

(** The same directory without the malformed file. *)
Definition goodManifests : FS := {|
  ReadDir := inr [mkDirEntry "charts" true; mkDirEntry "deployment.yaml" false];
  ReadFile := ReadFile manifests;
|}.

Definition decodeError : error := (decoder badFile).2.

(** The bytes [yaml.Marshal] stands for. *)
Definition encoding (m : Manifest) : list byte :=
  match marshal m with
  | inr objData => objData
  | inl _ => []
  end.

(** A store that is out of reach: every call is answered with a time-out. *)
Definition timeout : error := StatusError "Timeout" "etcdserver: request timed out".

Definition unreachableStore : Client unit := {|
  clientCreate cm s := (Some timeout, s);
  clientDelete cm s := (Some timeout, s);
|}.

Definition notFound (cm : ConfigMap) : error :=
  StatusError "NotFound" ("configmaps " +:+ Name cm +:+ " not found").

(** Four runs of the reconciler, with their calls recorded.  [unchanged]:
    the store holds the chunks of [imageA], which are also the desired ones.
    [newImage]: the store holds the chunks of [imageA] and the desired ones
    are those of [imageB].  [staleListing]: the listed chunk of the service
    is no longer in the store and nothing is desired.  [outage]: the same
    against the store that is out of reach. *)
Definition unchanged :=
  ensureDesiredConfigMaps range (client := recording memoryStore)
    chunksA chunksA (indexActual chunksA, []).

Definition newImage :=
  ensureDesiredConfigMaps range (client := recording memoryStore)
    chunksA chunksB (indexActual chunksA, []).

Definition staleListing :=
  ensureDesiredConfigMaps range (client := recording memoryStore)
    [serviceA] [] (∅, []).

Definition outage :=
  ensureDesiredConfigMaps range (client := recording unreachableStore)
    [serviceA] [] (tt, []).

(** The doubles of the further properties: the chunks of the two config
    maps with colliding digests; an encoder that refuses an object without a
    name; a directory that lists a file which is not there, and one that
    cannot be listed; [strconv.Quote] for strings without special
    characters; the unpack pod, whose init container has not reported its
    image ID yet; and a cluster that holds the bundle, the pod and, as its
    state, the config maps. *)
Definition collidingChunks : list ConfigMap := (build imageA [settings1; settings2]).1.

Definition nameless : Manifest := mkManifest "v1" "Secret" "default" EmptyString.

Definition marshalError : error := errorString "yaml: object has no name".

Definition pickyMarshal (m : Manifest) : error + list byte :=
  if bool_decide (mName m = EmptyString) then inl marshalError else marshal m.

Definition brokenManifests : FS := {|
  ReadDir := inr [mkDirEntry "deployment.yaml" false; mkDirEntry "secret.yaml" false];
  ReadFile := ReadFile manifests;
|}.

Definition listError : error := errorString "open manifests: no such file or directory".

Definition unlistable : FS := {|
  ReadDir := inl listError;
  ReadFile := ReadFile manifests;
|}.

Definition quote (s : string) : string :=
  String "034" (s +:+ String "034" EmptyString).

Definition pod : Pod.t :=
  Pod.mk
    [ContainerStatus.mk "quay.io/example/bundle:v1" EmptyString]
    [ContainerStatus.mk "quay.io/example/unpack:v1" "quay.io/example/unpack@sha256:cccc";
     ContainerStatus.mk "quay.io/example/bundle:v1" imageA].

Definition gone (resource : string) (key : NamespacedName) : error :=
  StatusError "NotFound" (resource +:+ " " +:+ nnName key +:+ " not found").

Definition cluster : Reader (gmap NamespacedName ConfigMap) := {|
  clientGetBundle key store :=
    if bool_decide (key = mkNamespacedName "olm" "mybundle") then (inr bundle, store)
    else (inl (gone "bundles" key), store);
  clientGetPod key store :=
    if bool_decide (key = mkNamespacedName "olm" "unpack-mybundle") then (inr pod, store)
    else (inl (gone "pods" key), store);
  clientListConfigMaps labels namespace store :=
    (inr (List.filter
            (fun cm =>
               bool_decide (Namespace cm = namespace) &&
               bool_decide (map_Forall (fun k v => index (Labels cm) k = Some v)
                              (entries labels)))
            (snd <$> map_to_list store)),
     store);
|}.

(** An unpacker whose pod is not in the cluster. *)
Definition lateUnpacker : Unpacker.t :=
  Unpacker.mk "olm" "unpack-gone" "kuberpak-example" "mybundle".

(** Further runs.  [firstUnpack]: the whole unpack against the cluster with
    no config map.  [firstRun], [clashingRun]: the reconciler with nothing
    listed, for the chunks of [imageA] and for the colliding chunks.
    [staleService]: the chunk of the service is listed and no longer
    desired. *)
Definition firstUnpack :=
  recordedRun cluster memoryStore range quote decoder goodManifests marshal
    gzipWrite gzipClose controllerRef unpacker ∅.


Definition staleService :=
  ensureDesiredConfigMaps range (client := recording memoryStore)
    chunksA (take 1 chunksA) (indexActual chunksA, []).

End Example.

(** The test vectors of FIPS 180-4 for one block, for the empty message and
    for two blocks. *)
Lemma Sum256_test_vectors :
  hex (Sha256.Sum256 (list_byte_of_string "abc"))
  = "ba7816bf8f01cfea414140de5dae2223b00361a396177a9cb410ff61f20015ad" ∧
  hex (Sha256.Sum256 [])
  = "e3b0c44298fc1c149afbf4c8996fb92427ae41e4649b934ca495991b7852b855" ∧
  hex (Sha256.Sum256 (list_byte_of_string
         "abcdbcdecdefdefgefghfghighijhijkijkljklmklmnlmnomnopnopq"))
  = "248d6a61d20638b8e5c026930c3e6039a33ce45964ff2167f6ecedd419db06c1".
Proof. repeat split; vm_compute; reflexivity. Qed.

(** ** The properties on the example bundle *)

Lemma NoDup_fmap_elem_inj {A B} (f : A → B) (l : list A) (x y : A) :
  NoDup (f <$> l) → x ∈ l → y ∈ l → f x = f y → x = y.
Proof.
  intros Hnd [i Hi]%list_elem_of_lookup [j Hj]%list_elem_of_lookup Hf.
  assert (i = j) as ->; [|congruence].
  eapply NoDup_lookup; [exact Hnd| |].
  - rewrite list_lookup_fmap, Hi. reflexivity.
  - rewrite list_lookup_fmap, Hj. simpl. by rewrite Hf.
Qed.

Section Witnesses.

Import Example.

Lemma example_chunks_have_distinct_keys :
  NoDup (keyOf <$> chunksA) ∧ NoDup (keyOf <$> chunksB).
Proof. split; apply (bool_decide_eq_true_1 _); vm_compute; reflexivity. Qed.

Lemma example_service_is_replaced :
  serviceB ∈ chunksB ∧
  indexActual chunksA !! keyOf serviceB = Some serviceA ∧
  configMapsEqual range serviceA serviceB = false.
Proof.
  split; [vm_compute; right; left|].
  split; vm_compute; reflexivity.
Qed.

(** Nothing changed between two unpacks: no call, no error. *)
Lemma converged_set_is_left_alone_witness :
  NoDup (keyOf <$> chunksA) ∧ unchanged = (inr tt, (indexActual chunksA, [])).
Proof.
  pose proof (proj1 example_chunks_have_distinct_keys) as Hnd.
  split; [exact Hnd|]. unfold unchanged.
  apply (converged_set_is_left_alone range range_order memoryStore
           (indexActual chunksA) chunksA chunksA Hnd).
  - intros k. reflexivity.
  - intros a d Ha Hd Hkey.
    rewrite (NoDup_fmap_elem_inj keyOf chunksA a d Hnd Ha Hd Hkey).
    repeat split.
Defined.

(** The image changed: the old chunk of the service is deleted and the new
    one created right after. *)
Lemma replace_deletes_then_creates_witness :
  NoDup (keyOf <$> chunksB) ∧
  ∃ j err',
    calls newImage !! j = Some (mkCall (OpDelete serviceA) err') ∧
    calls newImage !! Datatypes.S j = Some (mkCall (OpCreate serviceB) None).
Proof.
  pose proof (proj2 example_chunks_have_distinct_keys) as Hnd.
  destruct example_service_is_replaced as (Hin & Hold & Hne).
  split; [exact Hnd|]. unfold newImage.
  apply (proj2 (replace_deletes_then_creates range memoryStore
                  (indexActual chunksA) chunksA chunksB Hnd));
    [vm_compute; reflexivity|exact Hin|exact Hold|exact Hne].
Defined.

(** The image changed: the run returns without error and the store is empty,
    so the new chunk of the service is not in it. *)
Lemma replaced_chunk_is_lost_witness :
  NoDup (keyOf <$> chunksB) ∧ serviceB ∈ chunksB ∧
  indexActual chunksA !! keyOf serviceB = Some serviceA ∧
  configMapsEqual range serviceA serviceB = false ∧
  ensureDesiredConfigMaps range (client := memoryStore)
    chunksA chunksB (indexActual chunksA) = (inr tt, ∅) ∧
  (∅ : gmap NamespacedName ConfigMap) !! keyOf serviceB = None.
Proof.
  pose proof (proj2 example_chunks_have_distinct_keys) as Hnd.
  destruct example_service_is_replaced as (Hin & Hold & Hne).
  assert (ensureDesiredConfigMaps range (client := memoryStore)
            chunksA chunksB (indexActual chunksA) = (inr tt, ∅)) as Hrun
    by (vm_compute; reflexivity).
  repeat (split; [assumption|]).
  exact (replaced_chunk_is_lost range range_order chunksA chunksB
           (indexActual chunksA) ∅ serviceB serviceA Hnd Hin Hold Hne Hrun).
Defined.

(** The image changed: the key of the service is deleted twice. *)
Lemma replaced_key_is_deleted_twice_witness :
  NoDup (keyOf <$> chunksB) ∧ serviceB ∈ chunksB ∧
  indexActual chunksA !! keyOf serviceB = Some serviceA ∧
  configMapsEqual range serviceA serviceB = false ∧
  returned newImage = inr tt ∧
  countDeletes (keyOf serviceB) (callOp <$> calls newImage) = 2.
Proof.
  pose proof (proj2 example_chunks_have_distinct_keys) as Hnd.
  destruct example_service_is_replaced as (Hin & Hold & Hne).
  assert (returned newImage = inr tt) as Hrun by (vm_compute; reflexivity).
  repeat (split; [assumption|]). unfold newImage in Hrun |- *.
  exact (replaced_key_is_deleted_twice range range_order memoryStore
           (indexActual chunksA) chunksA chunksB serviceB serviceA
           Hnd Hin Hold Hne Hrun).
Defined.

(** The two config maps are different objects with different encodings, the
    digests of which agree on the first 8 hexadecimal digits; the builder
    returns both chunks, under one key, and no error. *)
Lemma colliding_objects_are_not_rejected :
  settings1 ≠ settings2 ∧
  encoding settings1 ≠ encoding settings2 ∧
  hashPrefix (hex (Sha256.Sum256 (encoding settings1))) = "e5ec9a3f" ∧
  hashPrefix (hex (Sha256.Sum256 (encoding settings2))) = "e5ec9a3f" ∧
  (build imageA [settings1; settings2]).2 = None ∧
  length (build imageA [settings1; settings2]).1 = 2 ∧
  ¬ NoDup (keyOf <$> (build imageA [settings1; settings2]).1).
Proof.
  split; [discriminate|]. split; [vm_compute; discriminate|].
  split; [vm_compute; reflexivity|]. split; [vm_compute; reflexivity|].
  split; [vm_compute; reflexivity|]. split; [vm_compute; reflexivity|].
  intros Hnd. apply (bool_decide_eq_true_2 _) in Hnd.
  vm_compute in Hnd. discriminate.
Qed.

Lemma example_encodings_succeed (objects : list Manifest) :
  ∀ obj, obj ∈ objects →
    ∃ cm, desiredConfigMap marshal gzipWrite gzipClose controllerRef unpacker bundle
            imageA obj = inr cm.
Proof.
  intros obj _. eexists.
  unfold desiredConfigMap, marshal, gzipWrite, gzipClose, SetControllerReference,
    controllerRef, ToAPIVersionAndKind, Manifest_object.
  cbv beta iota zeta. reflexivity.
Qed.

Lemma colliding_objects_share_a_key_witness :
  (∀ obj, obj ∈ [settings1; settings2] →
     ∃ cm, desiredConfigMap marshal gzipWrite gzipClose controllerRef unpacker bundle
             imageA obj = inr cm) ∧
  ∃ cms cm1 cm2,
    build imageA [settings1; settings2] = (cms, None) ∧
    cms !! 0 = Some cm1 ∧ cms !! 1 = Some cm2 ∧ keyOf cm1 = keyOf cm2.
Proof.
  split; [apply example_encodings_succeed|].
  destruct (colliding_objects_share_a_key marshal gzipWrite gzipClose controllerRef
              unpacker bundle imageA [settings1; settings2]
              (example_encodings_succeed _)) as (cms & Hcms & _ & Hkeys).
  destruct (Hkeys 0 1 settings1 settings2 (encoding settings1) (encoding settings2)
              eq_refl eq_refl eq_refl eq_refl)
    as (cm1 & cm2 & H1 & H2 & Hsame).
  { vm_compute. reflexivity. }
  by exists cms, cm1, cm2.
Defined.

Lemma desired_chunks_have_the_wire_shape_witness :
  build imageA [deployment; service] = (chunksA, None) ∧
  length chunksA = 2 ∧
  ∃ cm, chunksA !! 1 = Some cm ∧ Name cm = "bundle-object-mybundle-a678c05b".
Proof.
  assert (build imageA [deployment; service] = (chunksA, None)) as Hbuild
    by (vm_compute; reflexivity).
  split; [exact Hbuild|].
  destruct (proj1 (desired_chunks_have_the_wire_shape marshal gzipWrite gzipClose
                     controllerRef unpacker bundle imageA [deployment; service])
                  chunksA Hbuild) as [Hlen Hshape].
  split; [exact Hlen|].
  destruct (Hshape 1 service eq_refl)
    as (cm & objData & objCompressed & Hcm & Hyaml & _ & (Hname & _) & _).
  exists cm. split; [exact Hcm|]. rewrite Hname.
  apply (inj inr) in Hyaml. rewrite <- Hyaml. vm_compute. reflexivity.
Defined.

(** The second file of the directory has a malformed document; the loader
    returns the error of the decoder, and the name of the file is not part
    of its text. *)
Lemma decode_error_lacks_the_entry_name :
  entryMalformed decoder manifests (mkDirEntry "service.yaml" false) decodeError ∧
  getObjects decoder manifests = ([], Some decodeError) ∧
  includes "service.yaml" (Error decodeError) = false.
Proof.
  split; [|split; vm_compute; reflexivity].
  split; [reflexivity|]. exists badFile. repeat split; vm_compute; reflexivity.
Qed.

Lemma getObjects_returns_decoder_error_or_all_witness :
  (ReadDir manifests = inr [mkDirEntry "charts" true;
                            mkDirEntry "deployment.yaml" false;
                            mkDirEntry "service.yaml" false] ∧
   getObjects decoder manifests = ([], Some decodeError)) ∧
  (ReadDir goodManifests = inr [mkDirEntry "charts" true;
                                mkDirEntry "deployment.yaml" false] ∧
   getObjects decoder goodManifests = ([deployment; service], None)).
Proof.
  assert (Forall (entryLoads decoder manifests)
            [mkDirEntry "charts" true; mkDirEntry "deployment.yaml" false]) as Hpre.
  { constructor; [by left|]. constructor; [|constructor].
    right. exists goodFile. split; vm_compute; reflexivity. }
  split; (split; [reflexivity|]).
  - apply (proj1 (getObjects_returns_decoder_error_or_all decoder manifests _ eq_refl)
             [mkDirEntry "charts" true; mkDirEntry "deployment.yaml" false]
             (mkDirEntry "service.yaml" false) [] decodeError eq_refl Hpre).
    split; [reflexivity|]. exists badFile. repeat split; vm_compute; reflexivity.
  - apply (proj2 (getObjects_returns_decoder_error_or_all decoder goodManifests _ eq_refl)
             Hpre).
Defined.

(** A delete answered [NotFound] lets the run return without error; a delete
    answered with a time-out ends it with that error. *)
Lemma delete_not_found_is_success_witness :
  (calls staleListing
   = [] ++ mkCall (OpDelete serviceA) (Some (notFound serviceA)) :: [] ∧
   (([] : list Call) ≠ [] ∨ returned staleListing = inr tt)) ∧
  (calls outage = [] ++ mkCall (OpDelete serviceA) (Some timeout) :: [] ∧
   returned outage = inl (Errorf "delete configmap: " (Some timeout))).
Proof.
  split.
  - assert (calls staleListing
            = [] ++ mkCall (OpDelete serviceA) (Some (notFound serviceA)) :: [])
      as Hlog by (vm_compute; reflexivity).
    split; [exact Hlog|]. unfold staleListing in Hlog |- *.
    apply (proj1 (proj1 (delete_not_found_is_success range memoryStore ∅ [serviceA] [])
                        [] serviceA (Some (notFound serviceA)) [] Hlog)).
    right. exists (notFound serviceA). split; reflexivity.
  - assert (calls outage = [] ++ mkCall (OpDelete serviceA) (Some timeout) :: [])
      as Hlog by (vm_compute; reflexivity).
    split; [exact Hlog|]. unfold outage in Hlog |- *.
    apply (proj2 (proj1 (delete_not_found_is_success range unreachableStore tt
                           [serviceA] [])
                        [] serviceA (Some timeout) [] Hlog) timeout eq_refl eq_refl).
Defined.

Lemma maps_equal_iff_same_entries_witness :
  RangeOrder range ∧
  stringMapsEqual range None (Some ∅) = true ∧
  (stringMapsEqual range (Labels serviceA) (Labels serviceB) = true ↔
   ∀ k, index (Labels serviceA) k = index (Labels serviceB) k).
Proof.
  split; [exact range_order|].
  destruct (maps_equal_iff_same_entries range range_order)
    as (Hstring & _ & (Hnil & _) & _).
  split; [exact Hnil|apply Hstring].
Defined.

End Witnesses.

(** ** The further properties on the example bundle *)

Lemma Forall2_by_test {A B} (P : A → B → Prop) (test : A → B → bool)
    (l : list A) (k : list B) :
  (∀ a b, test a b = true → P a b) →
  length l = length k →
  forallb (fun p => test p.1 p.2) (zip l k) = true →
  Forall2 P l k.
Proof.
  intros Htest. revert k.
  induction l as [|a l IH]; intros [|b k] Hlen Hall; try discriminate.
  - constructor.
  - simpl in Hall. apply andb_true_iff in Hall as [Hab Hall].
    constructor; [by apply Htest|]. apply IH; [by injection Hlen|exact Hall].
Qed.

Section FurtherWitnesses.

Import Example.

Lemma example_chunks_differ :
  keyOf <$> chunksA = keyOf <$> chunksB ∧
  Forall2 (fun a d => ¬ sameContent a d) chunksA chunksB.
Proof.
  split; [vm_compute; reflexivity|].
  apply (Forall2_by_test _ (fun a d => negb (configMapsEqual range a d))).
  - intros a d Htest Hsame. apply (configMapsEqual_spec range range_order) in Hsame.
    rewrite Hsame in Htest. discriminate.
  - vm_compute. reflexivity.
  - vm_compute. reflexivity.
Qed.

Lemma example_builds :
  build imageA [deployment; service] = (chunksA, None) ∧
  build imageB [deployment; service] = (chunksB, None).
Proof. split; vm_compute; reflexivity. Qed.

(** The image changed: the run returns without error, and whatever it left
    in the store has the content of a desired chunk. *)
Lemma run_on_store_of_actual_witness :
  RangeOrder range ∧ NoDup (keyOf <$> chunksB) ∧
  ∃ store',
    ensureDesiredConfigMaps range (client := memoryStore)
      chunksA chunksB (indexActual chunksA) = (inr tt, store') ∧
    ∀ k x, store' !! k = Some x →
      ∃ d, d ∈ chunksB ∧ keyOf d = k ∧ sameContent x d.
Proof.
  pose proof (proj2 example_chunks_have_distinct_keys) as Hnd.
  split; [exact range_order|]. split; [exact Hnd|].
  destruct (run_on_store_of_actual range range_order chunksA chunksB Hnd)
    as (store' & Hrun & _ & _ & Hcontent).
  exists store'. split; assumption.
Defined.

(** Only the chunk of the service is in the store: the run creates the
    other one and leaves the store with the desired chunks. *)
Lemma converges_when_nothing_is_replaced_witness :
  RangeOrder range ∧ NoDup (keyOf <$> chunksA) ∧
  (∀ d a, d ∈ chunksA → indexActual [serviceA] !! keyOf d = Some a →
     configMapsEqual range a d = true) ∧
  ∃ store',
    ensureDesiredConfigMaps range (client := memoryStore)
      [serviceA] chunksA (indexActual [serviceA]) = (inr tt, store') ∧
    (∀ d, d ∈ chunksA → ∃ x, store' !! keyOf d = Some x ∧ sameContent x d) ∧
    (∀ k, k ∉ keyOf <$> chunksA → store' !! k = None).
Proof.
  pose proof (proj1 example_chunks_have_distinct_keys) as Hnd.
  assert (∀ d a, d ∈ chunksA → indexActual [serviceA] !! keyOf d = Some a →
            configMapsEqual range a d = true) as Hsame.
  { intros d a Hd Hlk. apply indexActual_lookup in Hlk as [Ha Hkey].
    apply list_elem_of_singleton in Ha. subst a.
    assert (serviceA ∈ chunksA) as Hs by (vm_compute; right; left).
    rewrite <- (NoDup_fmap_elem_inj keyOf chunksA serviceA d Hnd Hs Hd Hkey).
    apply (configMapsEqual_spec range range_order). repeat split. }
  split; [exact range_order|]. split; [exact Hnd|]. split; [exact Hsame|].
  exact (converges_when_nothing_is_replaced range range_order [serviceA] chunksA
           Hnd Hsame).
Defined.

(** The image changed and the first run emptied the store; the second run,
    which lists nothing, leaves the store with the desired chunks. *)
Lemma two_runs_converge_witness :
  NoDup (keyOf <$> chunksB) ∧
  ensureDesiredConfigMaps range (client := memoryStore)
    chunksA chunksB (indexActual chunksA) = (inr tt, ∅) ∧
  ∃ store2,
    ensureDesiredConfigMaps range (client := memoryStore) [] chunksB ∅
      = (inr tt, store2) ∧
    (∀ d, d ∈ chunksB → ∃ x, store2 !! keyOf d = Some x ∧ sameContent x d) ∧
    (∀ k, k ∉ keyOf <$> chunksB → store2 !! k = None).
Proof.
  pose proof (proj2 example_chunks_have_distinct_keys) as Hnd.
  assert (ensureDesiredConfigMaps range (client := memoryStore)
            chunksA chunksB (indexActual chunksA) = (inr tt, ∅)) as Hrun
    by (vm_compute; reflexivity).
  split; [exact Hnd|]. split; [exact Hrun|].
  exact (two_runs_converge range range_order chunksA [] chunksB ∅ (inr tt)
           Hnd Hrun eq_refl).
Defined.

(** The image changed, so every chunk is replaced: the store ends empty. *)
Lemma replacing_every_chunk_empties_the_store_witness :
  NoDup (keyOf <$> chunksB) ∧
  keyOf <$> chunksA = keyOf <$> chunksB ∧
  Forall2 (fun a d => ¬ sameContent a d) chunksA chunksB ∧
  ensureDesiredConfigMaps range (client := memoryStore)
    chunksA chunksB (indexActual chunksA) = (inr tt, ∅).
Proof.
  pose proof (proj2 example_chunks_have_distinct_keys) as Hnd.
  destruct example_chunks_differ as [Hkeys Hdiffer].
  repeat (split; [assumption|]).
  exact (replacing_every_chunk_empties_the_store range range_order chunksA chunksB
           Hnd Hkeys Hdiffer).
Defined.

(** The first run for the chunks of the deployment and the service
    succeeds; the first run for the two colliding chunks does not. *)
Lemma first_run_succeeds_iff_distinct_keys_witness :
  RangeOrder range ∧
  (ensureDesiredConfigMaps range (client := memoryStore) [] chunksA ∅).1 = inr tt ∧
  (ensureDesiredConfigMaps range (client := memoryStore) [] collidingChunks ∅).1
    ≠ inr tt.
Proof.
  pose proof (proj1 example_chunks_have_distinct_keys) as Hnd.
  split; [exact range_order|]. split.
  - destruct (first_run_succeeds_iff_distinct_keys range range_order chunksA)
      as [Hiff _].
    apply Hiff, Hnd.
  - intros Hrun.
    destruct (first_run_succeeds_iff_distinct_keys range range_order collidingChunks)
      as [Hiff _].
    apply Hiff in Hrun. apply (bool_decide_eq_true_2 _) in Hrun.
    vm_compute in Hrun. discriminate.
Defined.

(** The image changed: the create of the new chunk of the service is a
    call of the run, and that chunk is a desired one. *)
Lemma calls_stay_within_inputs_witness :
  RangeOrder range ∧
  mkCall (OpCreate serviceB) None ∈ calls newImage ∧
  serviceB ∈ chunksB.
Proof.
  assert (mkCall (OpCreate serviceB) None ∈ calls newImage) as Hcall.
  { apply list_elem_of_lookup. exists 3. vm_compute. reflexivity. }
  split; [exact range_order|]. split; [exact Hcall|]. unfold newImage in Hcall.
  exact (calls_stay_within_inputs range range_order memoryStore
           (indexActual chunksA) chunksA chunksB
           (mkCall (OpCreate serviceB) None) Hcall).
Defined.


(** The service is no longer desired: its key is deleted once. *)
Lemma stale_key_is_deleted_once_witness :
  RangeOrder range ∧
  returned staleService = inr tt ∧
  keyOf serviceA ∈ keyOf <$> chunksA ∧
  (keyOf serviceA ∉ keyOf <$> take 1 chunksA) ∧
  countDeletes (keyOf serviceA) (callOp <$> calls staleService) = 1.
Proof.
  assert (returned staleService = inr tt) as Hrun by (vm_compute; reflexivity).
  assert (keyOf serviceA ∈ keyOf <$> chunksA) as Hlisted
    by (vm_compute; right; left).
  assert (keyOf serviceA ∉ keyOf <$> take 1 chunksA) as Hstale
    by (apply (bool_decide_eq_false_1 _); vm_compute; reflexivity).
  split; [exact range_order|]. repeat (split; [assumption|]).
  unfold staleService in Hrun |- *.
  exact (stale_key_is_deleted_once range range_order memoryStore
           (indexActual chunksA) chunksA (take 1 chunksA) (keyOf serviceA)
           Hrun Hlisted Hstale).
Defined.


(** The chunk of the service under another name, in another namespace and
    without its owner compares like the chunk itself. *)
Lemma configMapsEqual_compares_four_maps_witness :
  RangeOrder range ∧
  configMapsEqual range
    (mkConfigMap "renamed" "kube-system" (Labels serviceA) (Annotations serviceA)
       [] None (Data serviceA) (BinaryData serviceA))
    serviceB
  = configMapsEqual range serviceA serviceB.
Proof.
  split; [exact range_order|].
  destruct (configMapsEqual_compares_four_maps range range_order)
    as (_ & _ & _ & _ & Hfields).
  apply Hfields.
Defined.

(** The first file gives two objects and the second one fails: none is
    returned. *)
Lemma getObjects_error_returns_no_objects_witness :
  (getObjects decoder manifests).2 = Some decodeError ∧
  (getObjects decoder manifests).1 = [].
Proof.
  assert ((getObjects decoder manifests).2 = Some decodeError) as Herr
    by (vm_compute; reflexivity).
  split; [exact Herr|].
  apply (getObjects_error_returns_no_objects decoder manifests _ decodeError).
  rewrite <- Herr. apply surjective_pairing.
Defined.

(** A directory that cannot be listed, and a directory whose second file
    cannot be read. *)
Lemma getObjects_read_errors_witness :
  getObjects decoder unlistable
  = ([], Some (errorString ("read manifests: " +:+ Error listError))) ∧
  getObjects decoder brokenManifests
  = ([], Some (errorString "open secret.yaml: file does not exist")).
Proof.
  split.
  - apply (proj1 (getObjects_read_errors decoder unlistable)). reflexivity.
  - apply (proj2 (getObjects_read_errors decoder brokenManifests)
             [mkDirEntry "deployment.yaml" false] (mkDirEntry "secret.yaml" false) []).
    + reflexivity.
    + constructor; [|constructor]. right. exists goodFile.
      split; vm_compute; reflexivity.
    + reflexivity.
    + vm_compute. reflexivity.
Defined.

(** The manifest directory with and without its sub-directory. *)
Lemma getObjects_skips_directories_witness :
  ReadDir goodManifests
  = inr [mkDirEntry "charts" true; mkDirEntry "deployment.yaml" false] ∧
  getObjects decoder goodManifests
  = getObjects decoder
      (mkFS (inr [mkDirEntry "deployment.yaml" false]) (ReadFile manifests)).
Proof.
  split; [reflexivity|].
  apply (getObjects_skips_directories decoder goodManifests
           [mkDirEntry "charts" true; mkDirEntry "deployment.yaml" false]
           (ReadFile manifests) eq_refl).
  intros e _ _. reflexivity.
Defined.

(** The second of three objects has no name: the encoder's error is
    returned, and no chunk. *)
Lemma getDesiredConfigMaps_fails_at_first_error_witness :
  getDesiredConfigMaps pickyMarshal gzipWrite gzipClose controllerRef unpacker
    bundle imageA ([deployment] ++ nameless :: [service])
  = ([], Some marshalError).
Proof.
  apply (proj1 (getDesiredConfigMaps_fails_at_first_error pickyMarshal gzipWrite
                  gzipClose controllerRef unpacker bundle imageA)).
  - intros o Ho. apply list_elem_of_singleton in Ho. subst o.
    exists (default emptyChunk (chunksA !! 0)). vm_compute. reflexivity.
  - vm_compute. reflexivity.
Defined.

(** The object without a name: the error is the encoder's. *)
Lemma desiredConfigMap_error_origin_witness :
  desiredConfigMap pickyMarshal gzipWrite gzipClose controllerRef unpacker bundle
    imageA nameless = inl marshalError ∧
  pickyMarshal nameless = inl marshalError.
Proof.
  assert (desiredConfigMap pickyMarshal gzipWrite gzipClose controllerRef unpacker
            bundle imageA nameless = inl marshalError) as Herr
    by (vm_compute; reflexivity).
  split; [exact Herr|].
  destruct (desiredConfigMap_error_origin pickyMarshal gzipWrite gzipClose
              controllerRef unpacker bundle imageA nameless marshalError Herr)
    as [Hyaml|(objData & Hyaml & _)]; [exact Hyaml|].
  vm_compute in Hyaml. discriminate.
Defined.

(** The chunks of the two images have the same keys and, one by one,
    different contents. *)
Lemma chunks_of_two_images_witness :
  build imageA [deployment; service] = (chunksA, None) ∧
  build imageB [deployment; service] = (chunksB, None) ∧
  imageA ≠ imageB ∧
  keyOf <$> chunksA = keyOf <$> chunksB ∧
  Forall2 (fun a d => ¬ sameContent a d) chunksA chunksB.
Proof.
  destruct example_builds as [HA HB].
  assert (imageA ≠ imageB) as Hne by discriminate.
  repeat (split; [assumption|]). unfold build in HA, HB.
  destruct (chunks_of_two_images marshal gzipWrite gzipClose controllerRef unpacker
              bundle imageA imageB [deployment; service] chunksA chunksB HA HB)
    as [Hkeys Hdiffer].
  split; [exact Hkeys|exact (Hdiffer Hne)].
Defined.

(** The name of the chunk of the service has 31 characters: 23 and the 8 of
    the name of the bundle. *)
Lemma chunk_name_length_witness :
  build imageA [deployment; service] = (chunksA, None) ∧
  serviceA ∈ chunksA ∧
  String.length (Name serviceA) = 23 + String.length (Unpacker.BundleName unpacker).
Proof.
  pose proof (proj1 example_builds) as HA.
  assert (serviceA ∈ chunksA) as Hin by (vm_compute; right; left).
  repeat (split; [assumption|]). unfold build in HA.
  exact (chunk_name_length marshal gzipWrite gzipClose controllerRef unpacker bundle
           imageA [deployment; service] chunksA serviceA HA Hin).
Defined.

(** The init container names the image of the bundle without an image ID
    yet; the digest is the one the second container reports. *)
Lemma image_digest_is_of_the_first_matching_status_witness :
  getImageDigest (reader := cluster) quote unpacker (Bundle.Image bundle) ∅
    = (inr imageA, ∅) ∧
  imageA ≠ EmptyString ∧
  ∃ pod before ps after,
    clientGetPod (Reader := cluster)
      (mkNamespacedName (Unpacker.Namespace unpacker) (Unpacker.PodName unpacker)) ∅
      = (inr pod, ∅) ∧
    Pod.InitContainerStatuses pod ++ Pod.ContainerStatuses pod
      = before ++ ps :: after ∧
    ContainerStatus.Image ps = Bundle.Image bundle ∧
    ContainerStatus.ImageID ps = imageA ∧
    Forall (fun q => ContainerStatus.Image q ≠ Bundle.Image bundle ∨
                     ContainerStatus.ImageID q = EmptyString) before.
Proof.
  assert (getImageDigest (reader := cluster) quote unpacker (Bundle.Image bundle) ∅
          = (inr imageA, ∅)) as Hdigest by (vm_compute; reflexivity).
  split; [exact Hdigest|].
  exact (image_digest_is_of_the_first_matching_status quote unpacker
           (Bundle.Image bundle) ∅ imageA ∅ Hdigest).
Defined.

(** An image no container runs, and an unpacker whose pod is gone. *)
Lemma image_digest_fails_in_two_ways_witness :
  getImageDigest (reader := cluster) quote unpacker "quay.io/example/other:v1" ∅
    = (inl (errorString ("image digest for image "
                         +:+ quote "quay.io/example/other:v1" +:+ " not found")), ∅) ∧
  getImageDigest (reader := cluster) quote lateUnpacker (Bundle.Image bundle) ∅
    = (inl (gone "pods" (mkNamespacedName "olm" "unpack-gone")), ∅).
Proof.
  split.
  - apply (proj2 (image_digest_fails_in_two_ways quote unpacker
                    "quay.io/example/other:v1" ∅ _ ∅)).
    right. exists pod. split; [reflexivity|]. split; [|reflexivity].
    repeat constructor; discriminate.
  - apply (proj2 (image_digest_fails_in_two_ways quote lateUnpacker
                    (Bundle.Image bundle) ∅ _ ∅)).
    left. reflexivity.
Defined.

(** The first unpack into an empty cluster writes to it: every step before
    the reconciler succeeded. *)
Lemma run_writes_only_after_every_step_succeeded_witness :
  calls firstUnpack ≠ [] ∧
  ∃ bundle s1 resolvedImage s2 objects desired actual s3,
    clientGetBundle (Reader := cluster)
      (mkNamespacedName (Unpacker.Namespace unpacker) (Unpacker.BundleName unpacker)) ∅
      = (inr bundle, s1) ∧
    getImageDigest (reader := cluster) quote unpacker (Bundle.Image bundle) s1
      = (inr resolvedImage, s2) ∧
    getObjects decoder goodManifests = (objects, None) ∧
    getDesiredConfigMaps marshal gzipWrite gzipClose controllerRef unpacker
      bundle resolvedImage objects = (desired, None) ∧
    clientListConfigMaps (Reader := cluster)
      (getConfigMapLabels unpacker) (Unpacker.Namespace unpacker) s2
      = (inr actual, s3) ∧
    firstUnpack =
      ensureDesiredConfigMaps range (client := recording memoryStore)
        actual desired (s3, []).
Proof.
  assert (calls firstUnpack ≠ []) as Hcalls.
  { intros Hnil. apply (f_equal length) in Hnil. vm_compute in Hnil. discriminate. }
  split; [exact Hcalls|]. unfold firstUnpack in Hcalls |- *.
  exact (run_writes_only_after_every_step_succeeded cluster memoryStore range quote
           decoder goodManifests marshal gzipWrite gzipClose controllerRef unpacker
           ∅ Hcalls).
Defined.

End FurtherWitnesses.
